(** * Tic-tac-toe engine: rules, move search, board state and orchestrator

    A shallow embedding of [src/lib/rules.js], [src/lib/ai.js],
    [src/lib/board.js] and [src/lib/gameEngine.js], with the properties
    of the engine stated over it.

    Conventions.
    - A JavaScript value that can sit in a board slot is a [jsval]:
      [undefined], [null] or a string.  ['X'] is [JStr "X"].
    - An array is the list of its elements; reading past the end gives
      [undefined], writing past the end extends the array (the holes read
      as [undefined], which is all this code can observe of them).
    - Numbers that are scores are integers extended with the two
      infinities ([num]); indices and depths are integers.
    - Arrays that are shared between a [Board] and its callers live in a
      heap of arrays addressed by location; the pure rule functions and
      the search take the contents of the one array they work on, and
      [minimax], which writes to that array, returns its final contents
      together with its score. *)

From Stdlib Require Import ZArith QArith Qround String List Bool Lia.
From Stdlib Require Import Orders OrdersTac.
From stdpp Require Import base option list gmap strings.
Import ListNotations.

Local Close Scope Q_scope.
Local Open Scope string_scope.
Local Open Scope list_scope.
Local Open Scope Z_scope.

(** ** JavaScript values and arrays *)

Inductive jsval : Type :=
| JUndefined
| JNull
| JStr (s : string).

(** [a === b] on the values above. *)
Definition strictEq (a b : jsval) : bool :=
  match a, b with
  | JUndefined, JUndefined => true
  | JNull, JNull => true
  | JStr s, JStr t => String.eqb s t
  | _, _ => false
  end.

Definition X : jsval := JStr "X".
Definition O : jsval := JStr "O".

(** [a[i]] *)
Definition arrGet (a : list jsval) (i : nat) : jsval :=
  default JUndefined (a !! i).

(** [a[i] = v] *)
Definition arrSet (a : list jsval) (i : nat) (v : jsval) : list jsval :=
  if (i <? length a)%nat then <[i := v]> a
  else a ++ replicate (i - length a) JUndefined ++ [v].

(** [a.every(cell => cell !== null)] *)
Definition everyNonNull (a : list jsval) : bool :=
  forallb (fun cell => negb (strictEq cell JNull)) a.

(** ** rules.js *)

Module Rules.

Definition WIN_COMBINATIONS : list (nat * nat * nat) :=
  [ (0, 1, 2); (3, 4, 5); (6, 7, 8);
    (0, 3, 6); (1, 4, 7); (2, 5, 8);
    (0, 4, 8); (2, 4, 6) ]%nat.

Definition comboHeldBy (board : list jsval) (player : jsval)
    (combo : nat * nat * nat) : bool :=
  let '(a, b, c) := combo in
  strictEq (arrGet board a) player
  && strictEq (arrGet board b) player
  && strictEq (arrGet board c) player.

Fixpoint firstCombo (combos : list (nat * nat * nat))
    (board : list jsval) (player : jsval) : option (nat * nat * nat) :=
  match combos with
  | [] => None
  | combo :: rest =>
      if comboHeldBy board player combo then Some combo
      else firstCombo rest board player
  end.

(** [checkWin(board, player)]: the first winning combination, or [null]. *)
Definition checkWin (board : list jsval) (player : jsval)
    : option (nat * nat * nat) :=
  firstCombo WIN_COMBINATIONS board player.

(** Truthiness of the result of [checkWin]. *)
Definition truthy {A} (r : option A) : bool :=
  match r with Some _ => true | None => false end.

Definition checkDraw (board : list jsval) : bool :=
  if truthy (checkWin board X) || truthy (checkWin board O) then false
  else everyNonNull board.

Definition validateMove (board : list jsval) (row col : Z) : bool :=
  if (row <? 0) || (row >? 2) || (col <? 0) || (col >? 2) then false
  else strictEq (arrGet board (Z.to_nat (row * 3 + col))) JNull.

Definition validateMoveByIndex (board : list jsval) (index : Z) : bool :=
  if (index <? 0) || (index >? 8) then false
  else strictEq (arrGet board (Z.to_nat index)) JNull.

(** [cells.filter(c => c === v).length] *)
Definition countCells (cells : list jsval) (v : jsval) : nat :=
  length (List.filter (fun c => strictEq c v) cells).

(** The loop of [getWinningMove] over the combinations.  A combination
    with two markers of [player] and one empty slot answers with its
    empty slot; were none of its three slots empty, the loop would go
    on to the next combination. *)
Fixpoint winningMoveLoop (combos : list (nat * nat * nat))
    (board : list jsval) (player : jsval) : option nat :=
  match combos with
  | [] => None
  | (a, b, c) :: rest =>
      let cells := [arrGet board a; arrGet board b; arrGet board c] in
      let playerCount := countCells cells player in
      let emptyCount := countCells cells JNull in
      if (playerCount =? 2)%nat && (emptyCount =? 1)%nat then
        if strictEq (arrGet board a) JNull then Some a
        else if strictEq (arrGet board b) JNull then Some b
        else if strictEq (arrGet board c) JNull then Some c
        else winningMoveLoop rest board player
      else winningMoveLoop rest board player
  end.

(** [getWinningMove(board, player)] *)
Definition getWinningMove (board : list jsval) (player : jsval)
    : option nat :=
  winningMoveLoop WIN_COMBINATIONS board player.

Definition getGameResult (board : list jsval) : string :=
  if truthy (checkWin board X) then "PLAYER_WON"
  else if truthy (checkWin board O) then "AI_WON"
  else if checkDraw board then "DRAW"
  else "ONGOING".

End Rules.

(** ** ai.js *)

(** Scores: integers and the two infinities. *)
Inductive num : Type :=
| NegInf
| Fin (z : Z)
| PosInf.

Module Num.

Definition leb (a b : num) : bool :=
  match a, b with
  | NegInf, _ => true
  | _, PosInf => true
  | Fin x, Fin y => x <=? y
  | _, _ => false
  end.

Definition gtb (a b : num) : bool := negb (leb a b).

Definition max (a b : num) : num := if leb a b then b else a.
Definition min (a b : num) : num := if leb a b then a else b.

Definition le (a b : num) : Prop := leb a b = true.
Definition lt (a b : num) : Prop := leb b a = false.

End Num.

Module AI.

Import Rules.

Definition getAvailableMoves (board : list jsval) : list nat :=
  filter (fun i => strictEq (arrGet board i) JNull = true) (seq 0 9).

(** [getRandomMove(board)].  The value of [Math.random()], a number
    [r] with [0 <= r < 1], is a parameter of the model. *)
Definition getRandomMove (board : list jsval) (r : Q) : option nat :=
  let available := getAvailableMoves board in
  if (length available =? 0)%nat then None
  else
    let randomIndex := Qfloor (r * inject_Z (Z.of_nat (length available))) in
    available !! Z.to_nat randomIndex.

(** The body of [for (const move of available)] in the maximizing branch
    of [minimax]; [rec] is the recursive call at [depth + 1]. *)
Fixpoint maxLoop (rec : list jsval -> num -> num -> option (num * list jsval))
    (moves : list nat) (board : list jsval) (maxScore alpha beta : num)
    : option (num * list jsval) :=
  match moves with
  | [] => Some (maxScore, board)
  | move :: rest =>
      let board := arrSet board move O in
      match rec board alpha beta with
      | None => None
      | Some (score, board) =>
          let board := arrSet board move JNull in
          let maxScore := Num.max maxScore score in
          let alpha := Num.max alpha score in
          if Num.leb beta alpha then Some (maxScore, board)
          else maxLoop rec rest board maxScore alpha beta
      end
  end.

(** The minimizing branch. *)
Fixpoint minLoop (rec : list jsval -> num -> num -> option (num * list jsval))
    (moves : list nat) (board : list jsval) (minScore alpha beta : num)
    : option (num * list jsval) :=
  match moves with
  | [] => Some (minScore, board)
  | move :: rest =>
      let board := arrSet board move X in
      match rec board alpha beta with
      | None => None
      | Some (score, board) =>
          let board := arrSet board move JNull in
          let minScore := Num.min minScore score in
          let beta := Num.min beta score in
          if Num.leb beta alpha then Some (minScore, board)
          else minLoop rec rest board minScore alpha beta
      end
  end.

(** [minimax(board, depth, isMaximizing, alpha, beta)].  The array is
    written in place, so the result carries the array's contents on
    return.  [fuel] bounds the recursion depth; [None] means the bound
    was reached. *)
Fixpoint minimax (fuel : nat) (board : list jsval) (depth : Z)
    (isMaximizing : bool) (alpha beta : num) : option (num * list jsval) :=
  match fuel with
  | 0%nat => None
  | S fuel =>
      if truthy (checkWin board O) then Some (Fin (10 - depth), board)
      else if truthy (checkWin board X) then Some (Fin (depth - 10), board)
      else if checkDraw board then Some (Fin 0, board)
      else
        let available := getAvailableMoves board in
        if isMaximizing then
          maxLoop (fun b a be => minimax fuel b (depth + 1) false a be)
                  available board NegInf alpha beta
        else
          minLoop (fun b a be => minimax fuel b (depth + 1) true a be)
                  available board PosInf alpha beta
  end.

(** Recursion depth that a call on [board] can need: every level fills
    one of the empty slots among the first nine. *)
Definition minimaxFuel (board : list jsval) : nat :=
  S (length (getAvailableMoves board)).

(** The loop of [getMinimaxMove] over the available moves. *)
Fixpoint bestLoop (moves : list nat) (boardCopy : list jsval)
    (bestMove : option nat) (bestScore : num) : option (option nat) :=
  match moves with
  | [] => Some bestMove
  | move :: rest =>
      let boardCopy := arrSet boardCopy move O in
      match minimax (minimaxFuel boardCopy) boardCopy 0 false NegInf PosInf with
      | None => None
      | Some (score, boardCopy) =>
          let boardCopy := arrSet boardCopy move JNull in
          if Num.gtb score bestScore
          then bestLoop rest boardCopy (Some move) score
          else bestLoop rest boardCopy bestMove bestScore
      end
  end.

(** [getMinimaxMove(board)]: [Some None] is the JavaScript [null]; the
    outer [None] would be a search that ran out of fuel. *)
Definition getMinimaxMove (board : list jsval) : option (option nat) :=
  let available := getAvailableMoves board in
  if (length available =? 0)%nat then Some None
  else
    let boardCopy := board in
    bestLoop available boardCopy None NegInf.

(** [getMove(board, difficulty)] *)
Definition getMove (board : list jsval) (difficulty : jsval) (r : Q)
    : option (option nat) :=
  if strictEq difficulty (JStr "EASY") then Some (getRandomMove board r)
  else getMinimaxMove board.

End AI.

Definition emptyBoard : list jsval := replicate 9 JNull.

(** ** board.js *)

(** [a[i]] and [a[i] = v] for an integer index; a negative index names
    no element of the array. *)
Definition arrGetZ (a : list jsval) (i : Z) : jsval :=
  if i <? 0 then JUndefined else arrGet a (Z.to_nat i).

Definition arrSetZ (a : list jsval) (i : Z) (v : jsval) : list jsval :=
  if i <? 0 then a else arrSet a (Z.to_nat i) v.

Module BoardState.

(** A [Board] object: [cells] is a reference to an array in the heap. *)
Record Board : Type := mkBoard {
  cells : nat;
  currentPlayer : jsval;
  status : jsval
}.

(** The heap of arrays together with the fields of the one [Board]. *)
Record state : Type := mkState {
  heap : gmap nat (list jsval);
  this : Board
}.

(** A new array object. *)
Definition alloc (h : gmap nat (list jsval)) (a : list jsval)
    : nat * gmap nat (list jsval) :=
  let l := fresh (dom h) in (l, <[l := a]> h).

Definition contents (h : gmap nat (list jsval)) (l : nat) : list jsval :=
  default [] (h !! l).

(** [arr[i] = v] on the array at location [l]. *)
Definition store (h : gmap nat (list jsval)) (l : nat) (i : Z) (v : jsval)
    : gmap nat (list jsval) :=
  match h !! l with
  | Some a => <[l := arrSetZ a i v]> h
  | None => h
  end.

(** [initialize()]: every field is overwritten, so this is also what
    the constructor leaves. *)
Definition initialize (h : gmap nat (list jsval)) : state :=
  let '(l, h) := alloc h (replicate 9 JNull) in
  {| heap := h;
     this := {| cells := l; currentPlayer := X; status := JStr "ONGOING" |} |}.

Definition reset (st : state) : state := initialize (heap st).

Definition toIndex (row col : Z) : Z := row * 3 + col.

Definition toCoords (index : Z) : Z * Z := (index / 3, Z.rem index 3).

Definition isValid (row col : Z) : bool :=
  (row >=? 0) && (row <=? 2) && (col >=? 0) && (col <=? 2).

Definition getCell (st : state) (row col : Z) : jsval :=
  if negb (isValid row col) then JUndefined
  else arrGetZ (contents (heap st) (cells (this st))) (toIndex row col).

Definition getCellByIndex (st : state) (index : Z) : jsval :=
  if (index <? 0) || (index >? 8) then JUndefined
  else arrGetZ (contents (heap st) (cells (this st))) index.

Definition isEmpty (st : state) (row col : Z) : bool :=
  if negb (isValid row col) then false
  else strictEq (arrGetZ (contents (heap st) (cells (this st)))
                         (toIndex row col)) JNull.

Definition isOccupied (st : state) (row col : Z) : bool :=
  if negb (isValid row col) then false
  else negb (strictEq (arrGetZ (contents (heap st) (cells (this st)))
                               (toIndex row col)) JNull).

Definition isFull (st : state) : bool :=
  everyNonNull (contents (heap st) (cells (this st))).

Definition getAvailableMoves (st : state) : list nat :=
  filter (fun i => strictEq (arrGet (contents (heap st) (cells (this st))) i)
                            JNull = true) (seq 0 9).

Definition placeMove (st : state) (row col : Z) (player : jsval)
    : bool * state :=
  if negb (isValid row col) then (false, st)
  else if negb (isEmpty st row col) then (false, st)
  else if negb (strictEq player X) && negb (strictEq player O)
  then (false, st)
  else (true, {| heap := store (heap st) (cells (this st))
                               (toIndex row col) player;
                 this := this st |}).

Definition placeMoveByIndex (st : state) (index : Z) (player : jsval)
    : bool * state :=
  let coords := toCoords index in
  placeMove st (fst coords) (snd coords) player.

Definition getCurrentPlayer (st : state) : jsval := currentPlayer (this st).

Definition switchTurn (st : state) : state :=
  {| heap := heap st;
     this := {| cells := cells (this st);
                currentPlayer :=
                  if strictEq (currentPlayer (this st)) X then O else X;
                status := status (this st) |} |}.

Definition getPlayerSymbol : jsval := X.
Definition getAISymbol : jsval := O.

Definition getStatus (st : state) : jsval := status (this st).

Definition setStatus (st : state) (s : jsval) : state :=
  {| heap := heap st;
     this := {| cells := cells (this st);
                currentPlayer := currentPlayer (this st);
                status := s |} |}.

Definition isGameOver (st : state) : bool :=
  negb (strictEq (status (this st)) (JStr "ONGOING")).

(** [getBoard()]: [[...this.cells]] is a new array with the same
    elements; the result is the reference to it. *)
Definition getBoard (st : state) : nat * state :=
  let '(l, h) := alloc (heap st) (contents (heap st) (cells (this st))) in
  (l, {| heap := h; this := this st |}).

(** What a caller does to an array it holds: [arr[i] = v] on the array
    at [l], once or several times. *)
Definition callerWrite (st : state) (l : nat) (i : Z) (v : jsval) : state :=
  {| heap := store (heap st) l i v; this := this st |}.

Definition callerWrites (st : state) (l : nat) (ws : list (Z * jsval))
    : state :=
  fold_left (fun st w => callerWrite st l (fst w) (snd w)) ws st.

End BoardState.

(** ** stores.js and gameEngine.js *)

Module GameEngine.

Import Rules BoardState.

(** The writable stores; [board] holds a reference to an array. *)
Record Stores : Type := mkStores {
  board : nat;
  currentPlayer : jsval;
  gameStatus : jsval;
  difficulty : jsval;
  gameStarted : bool;
  aiThinking : bool;
  winningCombination : option (nat * nat * nat)
}.

(** The engine: the heap and its [Board], the stores, and the number of
    [handleAIMove] calls that are suspended at their [await]. *)
Record Engine : Type := mkEngine {
  bstate : state;
  stores : Stores;
  pendingAI : nat
}.

Definition setBoardStores (s : Stores) (b : nat) (p g : jsval) : Stores :=
  {| board := b; currentPlayer := p; gameStatus := g;
     difficulty := difficulty s; gameStarted := gameStarted s;
     aiThinking := aiThinking s;
     winningCombination := winningCombination s |}.

Definition setDifficultyStore (s : Stores) (d : jsval) : Stores :=
  {| board := board s; currentPlayer := currentPlayer s;
     gameStatus := gameStatus s;
     difficulty := d; gameStarted := gameStarted s;
     aiThinking := aiThinking s;
     winningCombination := winningCombination s |}.

Definition setGameStarted (s : Stores) (v : bool) : Stores :=
  {| board := board s; currentPlayer := currentPlayer s;
     gameStatus := gameStatus s;
     difficulty := difficulty s; gameStarted := v;
     aiThinking := aiThinking s;
     winningCombination := winningCombination s |}.

Definition setAiThinking (s : Stores) (v : bool) : Stores :=
  {| board := board s; currentPlayer := currentPlayer s;
     gameStatus := gameStatus s;
     difficulty := difficulty s; gameStarted := gameStarted s;
     aiThinking := v;
     winningCombination := winningCombination s |}.

Definition setWinningCombination (s : Stores)
    (v : option (nat * nat * nat)) : Stores :=
  {| board := board s; currentPlayer := currentPlayer s;
     gameStatus := gameStatus s;
     difficulty := difficulty s; gameStarted := gameStarted s;
     aiThinking := aiThinking s;
     winningCombination := v |}.

Definition withStores (e : Engine) (s : Stores) : Engine :=
  {| bstate := bstate e; stores := s; pendingAI := pendingAI e |}.

Definition withBoard (e : Engine) (st : state) : Engine :=
  {| bstate := st; stores := stores e; pendingAI := pendingAI e |}.

(** The module's initial stores and the engine built by
    [new GameEngine()]. *)
Definition newEngine : Engine :=
  let '(l, h) := alloc ∅ (replicate 9 JNull) in
  {| bstate := initialize h;
     stores := {| board := l; currentPlayer := X;
                  gameStatus := JStr "ONGOING";
                  difficulty := JStr "HARD";
                  gameStarted := false; aiThinking := false;
                  winningCombination := None |};
     pendingAI := 0 |}.

Definition syncStores (e : Engine) : Engine :=
  let '(l, st) := getBoard (bstate e) in
  {| bstate := st;
     stores := setBoardStores (stores e) l (getCurrentPlayer st)
                              (getStatus st);
     pendingAI := pendingAI e |}.

(** [initializeGame(selectedDifficulty = 'HARD')]: the default stands in
    for an argument that is absent or [undefined]. *)
Definition initializeGame (e : Engine) (selectedDifficulty : jsval)
    : Engine :=
  let selectedDifficulty :=
    if strictEq selectedDifficulty JUndefined then JStr "HARD"
    else selectedDifficulty in
  let e := withBoard e (initialize (heap (bstate e))) in
  let e := withStores e (setDifficultyStore (stores e) selectedDifficulty) in
  let e := withStores e (setGameStarted (stores e) true) in
  let e := withStores e (setAiThinking (stores e) false) in
  let e := withStores e (setWinningCombination (stores e) None) in
  syncStores e.

Definition checkGameEnd (e : Engine) : bool * Engine :=
  let '(boardState, st) := getBoard (bstate e) in
  let e := withBoard e st in
  let result := getGameResult (contents (heap st) boardState) in
  if negb (String.eqb result "ONGOING") then
    let e := withBoard e (setStatus (bstate e) (JStr result)) in
    let e :=
      if String.eqb result "PLAYER_WON" then
        withStores e (setWinningCombination (stores e)
          (checkWin (contents (heap st) boardState) X))
      else if String.eqb result "AI_WON" then
        withStores e (setWinningCombination (stores e)
          (checkWin (contents (heap st) boardState) O))
      else e in
    (true, syncStores e)
  else (false, e).

(** [handleAIMove()] up to its [await]: the guards, the lock, and the
    continuation left waiting for the timer. *)
Definition handleAIMove (e : Engine) : Engine :=
  if isGameOver (bstate e) then e
  else if negb (strictEq (getCurrentPlayer (bstate e)) O) then e
  else
    let e := withStores e (setAiThinking (stores e) true) in
    {| bstate := bstate e; stores := stores e;
       pendingAI := S (pendingAI e) |}.

(** [handleAIMove()] from its [await] on, run when the timer fires;
    [r] is the value of [Math.random()] used by the random strategy. *)
Definition resumeAIMove (e : Engine) (r : Q) : option Engine :=
  let currentDifficulty := difficulty (stores e) in
  let '(boardState, st) := getBoard (bstate e) in
  let e := withBoard e st in
  match AI.getMove (contents (heap st) boardState) currentDifficulty r with
  | None => None
  | Some move =>
      let e :=
        match move with
        | Some move =>
            let '(_, st) := placeMoveByIndex (bstate e) (Z.of_nat move) O in
            let e := withBoard e (switchTurn st) in
            let e := syncStores e in
            snd (checkGameEnd e)
        | None => e
        end in
      Some (withStores e (setAiThinking (stores e) false))
  end.

Definition handlePlayerMove (e : Engine) (row col : Z) : bool * Engine :=
  if isGameOver (bstate e) then (false, e)
  else if negb (strictEq (getCurrentPlayer (bstate e)) X) then (false, e)
  else if aiThinking (stores e) then (false, e)
  else
    let '(ok, st) := placeMove (bstate e) row col X in
    if negb ok then (false, e)
    else
      let e := withBoard e (switchTurn st) in
      let e := syncStores e in
      let '(ended, e) := checkGameEnd e in
      if ended then (true, e)
      else (true, handleAIMove e).

Definition handlePlayerMoveByIndex (e : Engine) (index : Z)
    : bool * Engine :=
  let coords := toCoords index in
  handlePlayerMove e (fst coords) (snd coords).

Definition resetGame (e : Engine) : Engine :=
  let e := withBoard e (reset (bstate e)) in
  let e := withStores e (setGameStarted (stores e) false) in
  let e := withStores e (setAiThinking (stores e) false) in
  let e := withStores e (setWinningCombination (stores e) None) in
  syncStores e.

Definition startNewGame (e : Engine) : Engine :=
  initializeGame e (difficulty (stores e)).

Definition setDifficulty (e : Engine) (newDifficulty : jsval)
    : bool * Engine :=
  if gameStarted (stores e) then (false, e)
  else (true, withStores e (setDifficultyStore (stores e) newDifficulty)).

(** What the external caller can observe: [getState()] with the board
    array read out, and the stores. *)
Record Snapshot : Type := mkSnapshot {
  snapBoard : list jsval;
  snapCurrentPlayer : jsval;
  snapStatus : jsval;
  snapStoreBoard : list jsval;
  snapStoreCurrentPlayer : jsval;
  snapStoreStatus : jsval;
  snapAiThinking : bool
}.

Definition getState (e : Engine) : Snapshot :=
  {| snapBoard := contents (heap (bstate e)) (cells (this (bstate e)));
     snapCurrentPlayer := getCurrentPlayer (bstate e);
     snapStatus := getStatus (bstate e);
     snapStoreBoard := contents (heap (bstate e)) (board (stores e));
     snapStoreCurrentPlayer := currentPlayer (stores e);
     snapStoreStatus := gameStatus (stores e);
     snapAiThinking := aiThinking (stores e) |}.

(** Calls from the page and timer expiries, in the order the event loop
    runs them. *)
Inductive event : Type :=
| InitializeGame (selectedDifficulty : jsval)
| HandlePlayerMove (row col : Z)
| ResetGame
| TimerFires (r : Q).

Definition step (e : Engine) (ev : event) : option Engine :=
  match ev with
  | InitializeGame d => Some (initializeGame e d)
  | HandlePlayerMove row col => Some (snd (handlePlayerMove e row col))
  | ResetGame => Some (resetGame e)
  | TimerFires r =>
      match pendingAI e with
      | 0%nat => Some e
      | S n =>
          resumeAIMove {| bstate := bstate e; stores := stores e;
                          pendingAI := n |} r
      end
  end.

Fixpoint run (e : Engine) (evs : list event) : option Engine :=
  match evs with
  | [] => Some e
  | ev :: evs =>
      match step e ev with
      | Some e => run e evs
      | None => None
      end
  end.

(** The state a reset is meant to leave. *)
Definition cleanReset (s : Snapshot) : Prop :=
  snapBoard s = replicate 9 JNull
  /\ snapCurrentPlayer s = X
  /\ snapStatus s = JStr "ONGOING"
  /\ snapStoreBoard s = replicate 9 JNull
  /\ snapStoreCurrentPlayer s = X
  /\ snapStoreStatus s = JStr "ONGOING".

End GameEngine.

(** ** Notions used to state the properties *)

Module Play.

Import Rules AI.

(** A side holds a winning line: all three slots of one of the eight
    combinations carry its marker. *)
Definition hasLine (board : list jsval) (player : jsval) : Prop :=
  exists a b c, In (a, b, c) WIN_COMBINATIONS
    /\ arrGet board a = player
    /\ arrGet board b = player
    /\ arrGet board c = player.

(** Every slot is occupied. *)
Definition full (board : list jsval) : Prop :=
  forall cell, In cell board -> cell <> JNull.

(** Exhaustive minimax without pruning and without in-place writes: the
    same terminal scores, the maximum (minimum) of the children's values
    over every empty slot in ascending order. *)
Fixpoint plain (fuel : nat) (board : list jsval) (depth : Z)
    (isMaximizing : bool) : num :=
  match fuel with
  | 0%nat => Fin 0
  | S fuel =>
      if truthy (checkWin board O) then Fin (10 - depth)
      else if truthy (checkWin board X) then Fin (depth - 10)
      else if checkDraw board then Fin 0
      else if isMaximizing then
        fold_left
          (fun best move =>
             Num.max best (plain fuel (arrSet board move O) (depth + 1) false))
          (getAvailableMoves board) NegInf
      else
        fold_left
          (fun best move =>
             Num.min best (plain fuel (arrSet board move X) (depth + 1) true))
          (getAvailableMoves board) PosInf
  end.

Definition plainMinimax (board : list jsval) (depth : Z)
    (isMaximizing : bool) : num :=
  plain (minimaxFuel board) board depth isMaximizing.

(** What a score [r] returned for the window [(alpha, beta)] says about
    the exhaustive value [v]: at or below [alpha] it is an upper bound,
    at or above [beta] a lower bound, strictly inside it is exact. *)
Definition bracket (alpha beta v r : num) : Prop :=
  (Num.leb r alpha = true -> Num.leb v r = true)
  /\ (Num.leb beta r = true -> Num.leb r v = true)
  /\ (Num.leb r alpha = false -> Num.leb beta r = false -> r = v).

(** Invariants of the two loops of [minimax]: [best] is the running
    score, [v] the exhaustive value of the children tried so far, and
    [alpha0] ([beta0]) the bound the call was entered with. *)
Definition maxInv (alpha0 best v : num) : Prop :=
  (Num.leb best alpha0 = true /\ Num.leb v best = true)
  \/ (Num.leb best alpha0 = false /\ v = best).

Definition minInv (beta0 best v : num) : Prop :=
  (Num.leb beta0 best = true /\ Num.leb best v = true)
  \/ (Num.leb beta0 best = false /\ v = best).

(** Legal alternating play, with the code's own legality and
    termination tests. *)
Definition legal (board : list jsval) (i : nat) : Prop :=
  validateMoveByIndex board (Z.of_nat i) = true.

Definition ongoing (board : list jsval) : Prop :=
  getGameResult board = "ONGOING".

(** [reachable board p]: [board] arises from the empty board by legal
    alternating play, 'X' first, and [p] is the side to move. *)
Inductive reachable : list jsval -> jsval -> Prop :=
| reach_empty : reachable emptyBoard X
| reach_X board i :
    reachable board X -> ongoing board -> legal board i ->
    reachable (arrSet board i X) O
| reach_O board i :
    reachable board O -> ongoing board -> legal board i ->
    reachable (arrSet board i O) X.

(** [neverLoses board]: on the open [board] with 'O' to move,
    [getMinimaxMove] returns a move, the move is legal, placing it does
    not leave 'X' with a line, and whatever legal reply 'X' makes, 'X'
    has not won and, when the game is still open, the same holds again
    on the board after the reply. *)
Inductive neverLoses : list jsval -> Prop :=
| holds_move board m :
    ongoing board ->
    getMinimaxMove board = Some (Some m) ->
    legal board m ->
    getGameResult (arrSet board m O) <> "PLAYER_WON" ->
    (forall i, ongoing (arrSet board m O) -> legal (arrSet board m O) i ->
       getGameResult (arrSet (arrSet board m O) i X) <> "PLAYER_WON") ->
    (forall i, ongoing (arrSet board m O) -> legal (arrSet board m O) i ->
       ongoing (arrSet (arrSet board m O) i X) ->
       neverLoses (arrSet (arrSet board m O) i X)) ->
    neverLoses board.

(** [xForces p board]: with [p] to move, 'X' wins whatever 'O' plays. *)
Inductive xForces : jsval -> list jsval -> Prop :=
| xf_won p board :
    getGameResult board = "PLAYER_WON" -> xForces p board
| xf_X board i :
    ongoing board -> legal board i ->
    xForces O (arrSet board i X) -> xForces X board
| xf_O board :
    ongoing board ->
    (forall i, legal board i -> xForces X (arrSet board i O)) ->
    xForces O board.

Fixpoint anyb {A : Type} (f : A -> bool) (l : list A) : bool :=
  match l with
  | [] => false
  | a :: l => if f a then true else anyb f l
  end.

Fixpoint allb {A : Type} (f : A -> bool) (l : list A) : bool :=
  match l with
  | [] => true
  | a :: l => if f a then allb f l else false
  end.

(** Decision procedures for the two notions, by game-tree search. *)
Definition gameFuel : nat := 10.

Fixpoint neverLosesb (n : nat) (board : list jsval) : bool :=
  match n with
  | 0%nat => false
  | S n =>
      if String.eqb (getGameResult board) "ONGOING" then
        match getMinimaxMove board with
        | Some (Some m) =>
            if validateMoveByIndex board (Z.of_nat m) then
              let board1 := arrSet board m O in
              let r1 := getGameResult board1 in
              if String.eqb r1 "PLAYER_WON" then false
              else if String.eqb r1 "ONGOING" then
                allb (fun i =>
                        let board2 := arrSet board1 i X in
                        let r2 := getGameResult board2 in
                        if String.eqb r2 "PLAYER_WON" then false
                        else if String.eqb r2 "ONGOING"
                             then neverLosesb n board2
                             else true)
                     (getAvailableMoves board1)
              else true
            else false
        | _ => false
        end
      else false
  end.

Fixpoint xForcesb (n : nat) (xToMove : bool) (board : list jsval) : bool :=
  match n with
  | 0%nat => false
  | S n =>
      let r := getGameResult board in
      if String.eqb r "PLAYER_WON" then true
      else if String.eqb r "ONGOING" then
        if xToMove then
          anyb (fun i => xForcesb n false (arrSet board i X))
                  (getAvailableMoves board)
        else
          allb (fun i => xForcesb n true (arrSet board i O))
                  (getAvailableMoves board)
      else false
  end.

(** All arrays of [n] slots that hold [null], 'X' or 'O'. *)
Fixpoint allBoards (n : nat) : list (list jsval) :=
  match n with
  | 0%nat => [[]]
  | S n => flat_map (fun t => [JNull :: t; X :: t; O :: t]) (allBoards n)
  end.

(** A slot is empty or carries one of the two markers. *)
Definition marker (cell : jsval) : Prop :=
  cell = JNull \/ cell = X \/ cell = O.

(** Number of slots of [board] that hold [v]. *)
Definition count (v : jsval) (board : list jsval) : nat :=
  length (filter (fun cell => strictEq cell v = true) board).

(** The nine-slot boards on which 'X' has placed one marker more than
    'O': every board that legal play reaches with 'O' to move is one. *)
Definition oTurnBoards : list (list jsval) :=
  filter (fun b => (count X b =? S (count O b))%nat = true) (allBoards 9).

(** A position that legal play reaches with 'O' to move and from which
    'X' wins by force: X 0, O 1, X 4. *)
Definition lostBoard : list jsval :=
  arrSet (arrSet (arrSet emptyBoard 0 X) 1 O) 4 X.

(** A position with 'O' to move that is not lost: X 0. *)
Definition cornerBoard : list jsval := arrSet emptyBoard 0 X.

(** The board seen from the other side: the two markers exchanged. *)
Definition swapMarkers (board : list jsval) : list jsval :=
  map (fun cell => if strictEq cell X then O
                   else if strictEq cell O then X else cell) board.

(** The optimal strategy against itself: 'O' moves by [getMinimaxMove];
    'X' moves by [getMinimaxMove] on the board with the markers
    exchanged.  The result is the final classification. *)
Fixpoint selfPlay (n : nat) (board : list jsval) (xToMove : bool)
    : option string :=
  match n with
  | 0%nat => None
  | S n =>
      let r := getGameResult board in
      if String.eqb r "ONGOING" then
        if xToMove then
          match getMinimaxMove (swapMarkers board) with
          | Some (Some m) => selfPlay n (arrSet board m X) false
          | _ => None
          end
        else
          match getMinimaxMove board with
          | Some (Some m) => selfPlay n (arrSet board m O) true
          | _ => None
          end
      else Some r
  end.

End Play.


(** ** Invariants of the board object and of the engine, and notions
    used to state further properties *)

Module Invariants.

Import Rules BoardState GameEngine Play.

(** The board's array is live, has nine slots, and every slot is empty
    or carries a marker. *)
Definition boardWellFormed (st : state) : Prop :=
  exists a, heap st !! cells (this st) = Some a
    /\ length a = 9%nat /\ Forall marker a.

(** The combination to highlight on a board: the winner's first
    combination, none while the game is open or drawn. *)
Definition winnerCombo (a : list jsval) : option (nat * nat * nat) :=
  if String.eqb (getGameResult a) "PLAYER_WON" then checkWin a X
  else if String.eqb (getGameResult a) "AI_WON" then checkWin a O
  else None.

(** The engine between two events: the board is well formed, the
    published array is a live array with the board's contents, the
    published turn and status are the board's, the turn is one of the
    two markers, the status is the classification of the board, and
    the published winning combination is the winner's. *)
Definition engineInv (e : Engine) : Prop :=
  exists a,
    heap (bstate e) !! cells (this (bstate e)) = Some a
    /\ heap (bstate e) !! board (stores e) = Some a
    /\ length a = 9%nat /\ Forall marker a
    /\ GameEngine.currentPlayer (stores e)
       = BoardState.currentPlayer (this (bstate e))
    /\ gameStatus (stores e) = status (this (bstate e))
    /\ (BoardState.currentPlayer (this (bstate e)) = X
        \/ BoardState.currentPlayer (this (bstate e)) = O)
    /\ status (this (bstate e)) = JStr (getGameResult a)
    /\ winningCombination (stores e) = winnerCombo a.

(** The test [playerCount === 2 && emptyCount === 1] of
    [getWinningMove] on one combination. *)
Definition twoAndEmpty (board : list jsval) (player : jsval)
    (combo : nat * nat * nat) : bool :=
  let '(a, b, c) := combo in
  let cells := [arrGet board a; arrGet board b; arrGet board c] in
  (countCells cells player =? 2)%nat && (countCells cells JNull =? 1)%nat.

(** The value [getMinimaxMove] gives to the move [m] on [board]: the
    exhaustive value of the position after 'O' has played [m]. *)
Definition moveValue (board : list jsval) (m : nat) : num :=
  plainMinimax (arrSet board m O) 0 false.

End Invariants.

(** * Properties *)

(** ** Values and arrays *)

Lemma strictEq_eq (a b : jsval) : strictEq a b = true <-> a = b.
Proof.
  destruct a, b; simpl; split; intros H;
    try discriminate; try reflexivity.
  - apply String.eqb_eq in H. now subst.
  - injection H as ->. apply String.eqb_refl.
Qed.

Lemma strictEq_refl (a : jsval) : strictEq a a = true.
Proof. now apply strictEq_eq. Qed.

Lemma strictEq_neq (a b : jsval) : strictEq a b = false <-> a <> b.
Proof.
  split.
  - intros H E. apply strictEq_eq in E. congruence.
  - intros H. destruct (strictEq a b) eqn:E; [|reflexivity].
    apply strictEq_eq in E. contradiction.
Qed.

Lemma arrGet_lt (a : list jsval) (i : nat) :
  arrGet a i <> JUndefined -> (i < length a)%nat.
Proof.
  unfold arrGet. intros H.
  destruct (a !! i) eqn:E.
  - now apply lookup_lt_Some in E.
  - now simpl in H.
Qed.

(** Reading after a write: the written slot holds the new value, every
    other index reads as before, also when the write extends the array. *)
Lemma arrGet_arrSet (a : list jsval) (i j : nat) (v : jsval) :
  arrGet (arrSet a i v) j = if (i =? j)%nat then v else arrGet a j.
Proof.
  unfold arrSet, arrGet.
  destruct (i <? length a)%nat eqn:Hlt.
  - apply Nat.ltb_lt in Hlt.
    destruct (Nat.eqb_spec i j) as [->|Hne].
    + now rewrite list_lookup_insert_eq.
    + now rewrite list_lookup_insert_ne.
  - apply Nat.ltb_ge in Hlt.
    destruct (Nat.eqb_spec i j) as [->|Hne].
    + rewrite lookup_app_r by lia.
      rewrite lookup_app_r by (rewrite length_replicate; lia).
      rewrite length_replicate.
      now replace (j - length a - (j - length a))%nat with 0%nat by lia.
    + destruct (Nat.lt_ge_cases j (length a)) as [Hj|Hj].
      * now rewrite lookup_app_l.
      * rewrite (lookup_ge_None_2 a j) by lia.
        rewrite lookup_app_r by lia.
        destruct (Nat.lt_ge_cases j i) as [Hji|Hji].
        -- rewrite lookup_app_l by (rewrite length_replicate; lia).
           rewrite lookup_replicate_2 by lia. reflexivity.
        -- rewrite lookup_app_r by (rewrite length_replicate; lia).
           rewrite length_replicate.
           rewrite lookup_ge_None_2; [reflexivity|simpl; lia].
Qed.

(** Placing a marker on a slot that holds [null] and writing [null]
    back gives the array as it was. *)
Lemma arrSet_undo (a : list jsval) (i : nat) (v : jsval) :
  arrGet a i = JNull -> arrSet (arrSet a i v) i JNull = a.
Proof.
  intros H.
  assert (Hlt : (i < length a)%nat) by (apply arrGet_lt; congruence).
  unfold arrSet.
  apply Nat.ltb_lt in Hlt as Hb. rewrite Hb.
  rewrite length_insert, Hb.
  rewrite list_insert_insert_eq.
  apply list_insert_id.
  unfold arrGet in H. destruct (a !! i); simpl in H; congruence.
Qed.

Lemma arrSet_length_lt (a : list jsval) (i : nat) (v : jsval) :
  (i < length a)%nat -> length (arrSet a i v) = length a.
Proof.
  intros H. unfold arrSet. apply Nat.ltb_lt in H. rewrite H.
  apply length_insert.
Qed.

(** ** Rules *)

Section RulesFacts.

Import Rules Play.

Lemma firstCombo_truthy combos board player :
  truthy (firstCombo combos board player) = true
  <-> exists combo, In combo combos /\ comboHeldBy board player combo = true.
Proof.
  induction combos as [|combo rest IH]; simpl.
  - split; [discriminate | intros (c & [] & _)].
  - destruct (comboHeldBy board player combo) eqn:E; simpl.
    + split; eauto.
    + rewrite IH. split.
      * intros (c & Hin & Hc). eauto.
      * intros (c & [<- | Hin] & Hc); [congruence | eauto].
Qed.

Lemma comboHeldBy_spec board player a b c :
  comboHeldBy board player (a, b, c) = true
  <-> arrGet board a = player /\ arrGet board b = player
      /\ arrGet board c = player.
Proof.
  unfold comboHeldBy.
  rewrite !andb_true_iff, !strictEq_eq. tauto.
Qed.

(** [checkWin] answers with a combination exactly when the side holds a
    winning line. *)
Lemma checkWin_truthy board player :
  truthy (checkWin board player) = true <-> hasLine board player.
Proof.
  unfold checkWin, hasLine. rewrite firstCombo_truthy. split.
  - intros ([[a b] c] & Hin & Hc). exists a, b, c.
    split; [assumption | now apply comboHeldBy_spec].
  - intros (a & b & c & Hin & H). exists (a, b, c).
    split; [assumption | now apply comboHeldBy_spec].
Qed.

Lemma checkWin_falsy board player :
  truthy (checkWin board player) = false <-> ~ hasLine board player.
Proof.
  rewrite <- checkWin_truthy.
  destruct (truthy (checkWin board player)); split; congruence.
Qed.

Lemma everyNonNull_full board :
  everyNonNull board = true <-> full board.
Proof.
  unfold everyNonNull, full. rewrite forallb_forall. split.
  - intros H cell Hin ->. specialize (H _ Hin). discriminate.
  - intros H cell Hin. apply negb_true_iff, strictEq_neq. now apply H.
Qed.

Lemma checkDraw_spec board :
  checkDraw board = true
  <-> ~ hasLine board X /\ ~ hasLine board O /\ full board.
Proof.
  unfold checkDraw.
  rewrite <- !checkWin_falsy, <- everyNonNull_full.
  destruct (truthy (checkWin board X)), (truthy (checkWin board O));
    simpl; intuition congruence.
Qed.

(** C6. Classification tests the win of 'X' first, then the win of 'O',
    then the draw, and answers in-progress otherwise; the draw test
    holds exactly when neither side has a winning line and every slot
    is occupied. *)
Theorem getGameResult_priority (board : list jsval) :
  (hasLine board X -> getGameResult board = "PLAYER_WON")
  /\ (~ hasLine board X -> hasLine board O ->
      getGameResult board = "AI_WON")
  /\ (~ hasLine board X -> ~ hasLine board O -> full board ->
      getGameResult board = "DRAW")
  /\ (~ hasLine board X -> ~ hasLine board O -> ~ full board ->
      getGameResult board = "ONGOING")
  /\ (checkDraw board = true
      <-> ~ hasLine board X /\ ~ hasLine board O /\ full board).
Proof.
  unfold getGameResult.
  pose proof (checkDraw_spec board) as HD.
  split; [|split; [|split; [|split]]].
  - intros HX. apply checkWin_truthy in HX. now rewrite HX.
  - intros HX HO. apply checkWin_falsy in HX. apply checkWin_truthy in HO.
    now rewrite HX, HO.
  - intros HX HO HF.
    assert (checkDraw board = true) as -> by (apply HD; auto).
    apply checkWin_falsy in HX, HO. now rewrite HX, HO.
  - intros HX HO HF.
    assert (checkDraw board = false) as ->.
    { destruct (checkDraw board); [|reflexivity].
      exfalso. apply HF. now apply HD. }
    apply checkWin_falsy in HX, HO. now rewrite HX, HO.
  - exact HD.
Qed.

End RulesFacts.

(** ** Index and coordinate conversion *)

Section Coordinates.

Import BoardState.

Lemma toIndex_toCoords (i : Z) :
  0 <= i <= 8 ->
  toIndex (fst (toCoords i)) (snd (toCoords i)) = i
  /\ 0 <= fst (toCoords i) <= 2 /\ 0 <= snd (toCoords i) <= 2.
Proof.
  intros Hi. unfold toIndex, toCoords. simpl.
  rewrite Z.rem_mod_nonneg by lia.
  pose proof (Z.div_mod i 3 ltac:(lia)) as Hdm.
  pose proof (Z.mod_pos_bound i 3 ltac:(lia)) as Hm.
  assert (0 <= i / 3 < 3).
  { split; [apply Z.div_pos; lia|].
    apply Z.div_lt_upper_bound; lia. }
  lia.
Qed.

Lemma toCoords_toIndex (row col : Z) :
  0 <= row <= 2 -> 0 <= col <= 2 ->
  toCoords (toIndex row col) = (row, col)
  /\ toIndex row col = row * 3 + col
  /\ 0 <= toIndex row col <= 8.
Proof.
  intros Hr Hc. unfold toIndex, toCoords.
  rewrite Z.rem_mod_nonneg by lia.
  repeat split; try lia.
  f_equal.
  - rewrite Z.div_add_l by lia. rewrite Z.div_small by lia. lia.
  - rewrite Z.add_comm, Z.mod_add by lia. apply Z.mod_small. lia.
Qed.

(** C7. On the nine valid positions the two conversions are inverse to
    each other, with index = row * 3 + col, and each maps the valid
    positions of one form to valid positions of the other. *)
Theorem toIndex_toCoords_bijection :
  (forall i : Z, 0 <= i <= 8 ->
     toIndex (fst (toCoords i)) (snd (toCoords i)) = i
     /\ 0 <= fst (toCoords i) <= 2 /\ 0 <= snd (toCoords i) <= 2)
  /\ (forall row col : Z, 0 <= row <= 2 -> 0 <= col <= 2 ->
     toCoords (toIndex row col) = (row, col)
     /\ toIndex row col = row * 3 + col
     /\ 0 <= toIndex row col <= 8).
Proof.
  split; [exact toIndex_toCoords | exact toCoords_toIndex].
Qed.

End Coordinates.

(** ** Scores as a total order *)

Module NumOrder <: TotalOrder.

Definition t := num.
Definition eq := @eq num.
Definition eq_equiv : Equivalence eq := eq_equivalence.
Definition lt := Num.lt.
Definition le := Num.le.

Lemma lt_strorder : StrictOrder lt.
Proof.
  split.
  - intros [|x|]; unfold complement, lt, Num.lt; simpl; try discriminate.
    rewrite Z.leb_refl. discriminate.
  - intros [|x|] [|y|] [|z|]; unfold lt, Num.lt; simpl;
      try discriminate; try reflexivity.
    rewrite !Z.leb_gt. lia.
Qed.

Lemma lt_compat : Proper (eq ==> eq ==> iff) lt.
Proof. intros a b -> c d ->. reflexivity. Qed.

Lemma le_lteq : forall x y, le x y <-> lt x y \/ eq x y.
Proof.
  intros [|x|] [|y|]; unfold le, lt, eq, Num.le, Num.lt; simpl;
    try (split; [auto | intros [?|?]; congruence]; fail).
  rewrite Z.leb_le, Z.leb_gt. split.
  - intros H. destruct (Z.eq_dec x y); [right; congruence | left; lia].
  - intros [H|H]; [lia | injection H; lia].
Qed.

Lemma lt_total : forall x y, lt x y \/ eq x y \/ lt y x.
Proof.
  intros [|x|] [|y|]; unfold lt, eq, Num.lt; simpl; auto.
  rewrite !Z.leb_gt.
  destruct (Z.lt_total x y) as [H|[H|H]]; auto.
  right; left; congruence.
Qed.

End NumOrder.

Module NumOrderTac := MakeOrderTac NumOrder NumOrder.

(** Order goals over scores: case on every comparison under a
    [Math.max] or [Math.min], then decide by the order axioms. *)
Ltac num_order :=
  unfold Num.max, Num.min in *;
  repeat match goal with
  | H : true = false |- _ => discriminate H
  | H : false = true |- _ => discriminate H
  | H : context [ if Num.leb ?a ?b then _ else _ ] |- _ =>
      let E := fresh "E" in destruct (Num.leb a b) eqn:E; cbv iota in *
  | |- context [ if Num.leb ?a ?b then _ else _ ] =>
      let E := fresh "E" in destruct (Num.leb a b) eqn:E; cbv iota in *
  end;
  repeat match goal with
  | H : Num.leb ?a ?b = true |- _ => change (NumOrder.le a b) in H
  | H : Num.leb ?a ?b = false |- _ => change (NumOrder.lt b a) in H
  | |- Num.leb ?a ?b = true => change (NumOrder.le a b)
  | |- Num.leb ?a ?b = false => change (NumOrder.lt b a)
  | H : @Logic.eq num ?a ?b |- _ => change (NumOrder.eq a b) in H
  | |- @Logic.eq num ?a ?b => change (NumOrder.eq a b)
  end;
  first [ discriminate | NumOrderTac.order ].

Section Window.

Import Play.

Lemma bracket_exact alpha beta v : bracket alpha beta v v.
Proof. unfold bracket. repeat split; intros; num_order. Qed.

Lemma bracket_full v r : bracket NegInf PosInf v r -> r = v.
Proof.
  intros (B1 & B2 & B3).
  destruct r as [|x|]; simpl in *.
  - specialize (B1 eq_refl). destruct v; simpl in B1; congruence.
  - now apply B3.
  - specialize (B2 eq_refl). destruct v; simpl in B2; congruence.
Qed.

Lemma max_NegInf a : Num.max a NegInf = a.
Proof. destruct a; reflexivity. Qed.

Lemma min_PosInf a : Num.min a PosInf = a.
Proof. destruct a; reflexivity. Qed.

Lemma maxInv_start alpha0 : maxInv alpha0 NegInf NegInf.
Proof. left. split; reflexivity. Qed.

Lemma minInv_start beta0 : minInv beta0 PosInf PosInf.
Proof. left. split; [destruct beta0|]; reflexivity. Qed.

(** The maximizing loop stops: the child's score reached [beta]. *)
Lemma max_step_break alpha0 beta best V v r W :
  Num.leb beta (Num.max alpha0 best) = false ->
  maxInv alpha0 best V ->
  bracket (Num.max alpha0 best) beta v r ->
  Num.leb beta (Num.max (Num.max alpha0 best) r) = true ->
  Num.leb (Num.max V v) W = true ->
  bracket alpha0 beta W (Num.max best r).
Proof.
  intros Hab Hinv (B1 & B2 & B3) Hbrk HW.
  assert (Hr : Num.leb beta r = true)
    by (revert Hab Hbrk; clear; intros; num_order).
  specialize (B2 Hr).
  assert (Num.max best r = r) as ->
    by (revert Hab Hr; clear; intros; num_order).
  split; [|split]; intros.
  - exfalso. revert Hab Hr H; clear; intros; num_order.
  - revert B2 HW; clear; intros; num_order.
  - exfalso. revert Hr H0; clear; intros; num_order.
Qed.

(** The maximizing loop goes on: the bound and the invariant move to
    the next child. *)
Lemma max_step_cont alpha0 beta best V v r :
  Num.leb beta (Num.max alpha0 best) = false ->
  maxInv alpha0 best V ->
  bracket (Num.max alpha0 best) beta v r ->
  Num.leb beta (Num.max (Num.max alpha0 best) r) = false ->
  Num.max (Num.max alpha0 best) r = Num.max alpha0 (Num.max best r)
  /\ maxInv alpha0 (Num.max best r) (Num.max V v).
Proof.
  intros Hab Hinv (B1 & B2 & B3) Hcont.
  split.
  - clear. num_order.
  - assert (Hrb : Num.leb beta r = false)
      by (revert Hcont; clear; intros; num_order).
    destruct (Num.leb r (Num.max alpha0 best)) eqn:Hra.
    + specialize (B1 eq_refl). clear B2 B3.
      destruct Hinv as [[H1 H2]|[H1 H2]].
      * left. split.
        -- revert H1 Hra; clear; intros; num_order.
        -- revert H2 B1; clear; intros; num_order.
      * right. split.
        -- revert H1 Hra; clear; intros; num_order.
        -- subst V. revert H1 Hra B1; clear; intros; num_order.
    + specialize (B3 eq_refl Hrb). subst v. clear B1 B2.
      right. split.
      * revert Hra; clear; intros; num_order.
      * destruct Hinv as [[H1 H2]|[H1 H2]].
        -- revert H1 H2 Hra; clear; intros; num_order.
        -- subst V. revert H1 Hra; clear; intros; num_order.
Qed.

Lemma max_end alpha0 beta best V :
  Num.leb beta (Num.max alpha0 best) = false ->
  maxInv alpha0 best V ->
  bracket alpha0 beta V best.
Proof.
  intros Hab [[H1 H2]|[H1 H2]]; split; [|split| |split]; intros.
  - assumption.
  - exfalso. revert Hab H1 H; clear; intros; num_order.
  - congruence.
  - congruence.
  - subst V. clear. num_order.
  - now subst V.
Qed.

(** The same three steps for the minimizing loop. *)
Lemma min_step_break alpha beta0 best V v r W :
  Num.leb (Num.min beta0 best) alpha = false ->
  minInv beta0 best V ->
  bracket alpha (Num.min beta0 best) v r ->
  Num.leb (Num.min (Num.min beta0 best) r) alpha = true ->
  Num.leb W (Num.min V v) = true ->
  bracket alpha beta0 W (Num.min best r).
Proof.
  intros Hab Hinv (B1 & B2 & B3) Hbrk HW.
  assert (Hr : Num.leb r alpha = true)
    by (revert Hab Hbrk; clear; intros; num_order).
  specialize (B1 Hr).
  assert (Num.min best r = r) as ->
    by (revert Hab Hr; clear; intros; num_order).
  split; [|split]; intros.
  - revert B1 HW; clear; intros; num_order.
  - exfalso. revert Hab Hr H; clear; intros; num_order.
  - exfalso. revert Hr H; clear; intros; num_order.
Qed.

Lemma min_step_cont alpha beta0 best V v r :
  Num.leb (Num.min beta0 best) alpha = false ->
  minInv beta0 best V ->
  bracket alpha (Num.min beta0 best) v r ->
  Num.leb (Num.min (Num.min beta0 best) r) alpha = false ->
  Num.min (Num.min beta0 best) r = Num.min beta0 (Num.min best r)
  /\ minInv beta0 (Num.min best r) (Num.min V v).
Proof.
  intros Hab Hinv (B1 & B2 & B3) Hcont.
  split.
  - clear. num_order.
  - assert (Hrb : Num.leb r alpha = false)
      by (revert Hcont; clear; intros; num_order).
    destruct (Num.leb (Num.min beta0 best) r) eqn:Hra.
    + specialize (B2 eq_refl). clear B1 B3.
      destruct Hinv as [[H1 H2]|[H1 H2]].
      * left. split.
        -- revert H1 Hra; clear; intros; num_order.
        -- revert H2 B2; clear; intros; num_order.
      * right. split.
        -- revert H1 Hra; clear; intros; num_order.
        -- subst V. revert H1 Hra B2; clear; intros; num_order.
    + specialize (B3 Hrb eq_refl). subst v. clear B1 B2.
      right. split.
      * revert Hra; clear; intros; num_order.
      * destruct Hinv as [[H1 H2]|[H1 H2]].
        -- revert H1 H2 Hra; clear; intros; num_order.
        -- subst V. revert H1 Hra; clear; intros; num_order.
Qed.

Lemma min_end alpha beta0 best V :
  Num.leb (Num.min beta0 best) alpha = false ->
  minInv beta0 best V ->
  bracket alpha beta0 V best.
Proof.
  intros Hab [[H1 H2]|[H1 H2]]; split; [|split| |split]; intros.
  - exfalso. revert Hab H1 H; clear; intros; num_order.
  - assumption.
  - congruence.
  - subst V. clear. num_order.
  - subst V. clear. num_order.
  - now subst V.
Qed.

End Window.

(** ** The search: termination and the board on return *)

Section SearchFacts.

Import Rules AI Play.

Lemma getAvailableMoves_elem board (m : nat) :
  m ∈ getAvailableMoves board <-> (m < 9)%nat /\ arrGet board m = JNull.
Proof.
  unfold getAvailableMoves.
  rewrite list_elem_of_filter, elem_of_seq, strictEq_eq. intuition lia.
Qed.

(** Writing a marker to a slot removes it from the empty slots. *)
Lemma getAvailableMoves_arrSet board (m : nat) (v : jsval) :
  v <> JNull ->
  getAvailableMoves (arrSet board m v)
  = filter (fun i => i <> m) (getAvailableMoves board).
Proof.
  intros Hv.
  unfold getAvailableMoves. rewrite list_filter_filter.
  apply list_filter_iff. intros i.
  rewrite arrGet_arrSet.
  destruct (Nat.eqb_spec m i) as [->|Hne].
  - apply strictEq_neq in Hv. rewrite Hv. intuition congruence.
  - intuition congruence.
Qed.

(** Filling an empty slot leaves one empty slot less. *)
Lemma getAvailableMoves_fill board (m : nat) (v : jsval) :
  m ∈ getAvailableMoves board -> v <> JNull ->
  (length (getAvailableMoves (arrSet board m v))
   < length (getAvailableMoves board))%nat.
Proof.
  intros Hm Hv. rewrite getAvailableMoves_arrSet by assumption.
  apply (length_filter_lt _ _ m); [assumption | intros H; now apply H].
Qed.

Lemma getAvailableMoves_set_le board (m : nat) (v : jsval) :
  v <> JNull ->
  (length (getAvailableMoves (arrSet board m v))
   <= length (getAvailableMoves board))%nat.
Proof.
  intros Hv. rewrite getAvailableMoves_arrSet by assumption.
  apply length_filter.
Qed.

Lemma getAvailableMoves_length board :
  (length (getAvailableMoves board) <= 9)%nat.
Proof.
  unfold getAvailableMoves.
  etransitivity; [apply length_filter|]. now rewrite length_seq.
Qed.

Lemma O_not_null : O <> JNull.
Proof. discriminate. Qed.

Lemma X_not_null : X <> JNull.
Proof. discriminate. Qed.

(** The loops give the array back as they found it, provided every
    recursive call does. *)
Lemma maxLoop_restores rec moves board best alpha beta :
  (forall m, m ∈ moves -> arrGet board m = JNull) ->
  (forall m a b, m ∈ moves ->
     exists r, rec (arrSet board m O) a b = Some (r, arrSet board m O)) ->
  exists score, maxLoop rec moves board best alpha beta
                = Some (score, board).
Proof.
  revert best alpha.
  induction moves as [|m rest IH]; intros best alpha Hnull Hrec; simpl.
  - eauto.
  - destruct (Hrec m alpha beta) as [r Hr]; [left|].
    rewrite Hr. rewrite arrSet_undo by (apply Hnull; left).
    destruct (Num.leb beta (Num.max alpha r)); [eauto|].
    apply IH.
    + intros k Hk. apply Hnull. now right.
    + intros k a b Hk. apply Hrec. now right.
Qed.

Lemma minLoop_restores rec moves board best alpha beta :
  (forall m, m ∈ moves -> arrGet board m = JNull) ->
  (forall m a b, m ∈ moves ->
     exists r, rec (arrSet board m X) a b = Some (r, arrSet board m X)) ->
  exists score, minLoop rec moves board best alpha beta
                = Some (score, board).
Proof.
  revert best beta.
  induction moves as [|m rest IH]; intros best beta Hnull Hrec; simpl.
  - eauto.
  - destruct (Hrec m alpha beta) as [r Hr]; [left|].
    rewrite Hr. rewrite arrSet_undo by (apply Hnull; left).
    destruct (Num.leb (Num.min beta r) alpha); [eauto|].
    apply IH.
    + intros k Hk. apply Hnull. now right.
    + intros k a b Hk. apply Hrec. now right.
Qed.

(** With fuel above the number of empty slots, [minimax] returns, and
    the array then holds what it held at the call. *)
Lemma minimax_restores fuel board depth isMaximizing alpha beta :
  (length (getAvailableMoves board) < fuel)%nat ->
  exists score,
    minimax fuel board depth isMaximizing alpha beta = Some (score, board).
Proof.
  revert board depth isMaximizing alpha beta.
  induction fuel as [|fuel IH]; intros board depth isMax alpha beta Hfuel.
  - lia.
  - simpl.
    destruct (truthy (checkWin board O)); [eauto|].
    destruct (truthy (checkWin board X)); [eauto|].
    destruct (checkDraw board); [eauto|].
    destruct isMax.
    + apply maxLoop_restores.
      * intros m Hm. now apply getAvailableMoves_elem in Hm.
      * intros m a b Hm. apply IH.
        pose proof (getAvailableMoves_fill board m O Hm O_not_null). lia.
    + apply minLoop_restores.
      * intros m Hm. now apply getAvailableMoves_elem in Hm.
      * intros m a b Hm. apply IH.
        pose proof (getAvailableMoves_fill board m X Hm X_not_null). lia.
Qed.

(** C10. [minimax] writes its trial placements into the array it is
    given and undoes each of them: for every array and every argument
    the call returns a score, and the array's contents on return are
    its contents at the call. *)
Theorem minimax_restores_board (board : list jsval) (depth : Z)
    (isMaximizing : bool) (alpha beta : num) (extra : nat) :
  exists score,
    minimax (minimaxFuel board + extra) board depth isMaximizing alpha beta
    = Some (score, board).
Proof.
  apply minimax_restores. unfold minimaxFuel. lia.
Qed.

(** C5. The scores of the terminal nodes: 10 - depth when 'O' has a
    winning line, otherwise depth - 10 when 'X' has one, otherwise 0
    when the board is full. *)
Theorem minimax_terminal_scores (fuel : nat) (board : list jsval)
    (depth : Z) (isMaximizing : bool) (alpha beta : num) :
  (hasLine board O ->
     minimax (S fuel) board depth isMaximizing alpha beta
     = Some (Fin (10 - depth), board))
  /\ (~ hasLine board O -> hasLine board X ->
     minimax (S fuel) board depth isMaximizing alpha beta
     = Some (Fin (depth - 10), board))
  /\ (~ hasLine board O -> ~ hasLine board X -> full board ->
     minimax (S fuel) board depth isMaximizing alpha beta
     = Some (Fin 0, board)).
Proof.
  simpl. split; [|split].
  - intros HO. apply checkWin_truthy in HO. now rewrite HO.
  - intros HO HX. apply checkWin_falsy in HO. apply checkWin_truthy in HX.
    now rewrite HO, HX.
  - intros HO HX HF.
    assert (HD : checkDraw board = true) by (apply checkDraw_spec; auto).
    apply checkWin_falsy in HO, HX. now rewrite HO, HX, HD.
Qed.

(** The top-level loop of [getMinimaxMove] runs to its end. *)
Lemma bestLoop_total moves boardCopy bestMove bestScore :
  (forall m, m ∈ moves -> m ∈ getAvailableMoves boardCopy) ->
  exists move, bestLoop moves boardCopy bestMove bestScore = Some move.
Proof.
  revert bestMove bestScore.
  induction moves as [|m rest IH]; intros bestMove bestScore Hav;
    cbn [bestLoop].
  - eauto.
  - assert (Hm : m ∈ getAvailableMoves boardCopy) by (apply Hav; left).
    destruct (minimax_restores (minimaxFuel (arrSet boardCopy m O))
                (arrSet boardCopy m O) 0 false NegInf PosInf) as [r Hr].
    { unfold minimaxFuel. lia. }
    rewrite Hr.
    rewrite arrSet_undo by (now apply getAvailableMoves_elem in Hm).
    destruct (Num.gtb r bestScore); apply IH;
      intros k Hk; apply Hav; now right.
Qed.

Lemma getMinimaxMove_total board :
  exists move, getMinimaxMove board = Some move.
Proof.
  unfold getMinimaxMove.
  destruct (length (getAvailableMoves board) =? 0)%nat; [eauto|].
  apply bestLoop_total. auto.
Qed.

(** C8. [getMove] sends 'EASY' to the random strategy and every other
    token, 'HARD', an unknown string, [null] or [undefined] alike, to
    the minimax strategy, and it returns a move or [null] for every
    board and token. *)
Theorem getMove_dispatch (board : list jsval) (difficulty : jsval) (r : Q) :
  getMove board (JStr "EASY") r = Some (getRandomMove board r)
  /\ (difficulty <> JStr "EASY" ->
      getMove board difficulty r = getMinimaxMove board)
  /\ getMove board (JStr "HARD") r = getMinimaxMove board
  /\ getMove board JUndefined r = getMinimaxMove board
  /\ getMove board JNull r = getMinimaxMove board
  /\ exists move, getMove board difficulty r = Some move.
Proof.
  split; [reflexivity|]. split; [|split; [reflexivity|]].
  - intros Hne. unfold getMove.
    apply strictEq_neq in Hne. now rewrite Hne.
  - split; [reflexivity|]. split; [reflexivity|].
    unfold getMove.
    destruct (strictEq difficulty (JStr "EASY")); [eauto|].
    apply getMinimaxMove_total.
Qed.

End SearchFacts.

(** ** Pruning does not change the score *)

Section AlphaBeta.

Import Rules AI Play.

Lemma fold_max_ge (val : nat -> num) moves acc :
  Num.leb acc (fold_left (fun best m => Num.max best (val m)) moves acc)
  = true.
Proof.
  revert acc. induction moves as [|m rest IH]; intros acc; simpl.
  - clear. num_order.
  - specialize (IH (Num.max acc (val m))).
    revert IH. generalize (fold_left (fun best m0 => Num.max best (val m0))
                             rest (Num.max acc (val m))).
    intros W HW. num_order.
Qed.

Lemma fold_min_le (val : nat -> num) moves acc :
  Num.leb (fold_left (fun best m => Num.min best (val m)) moves acc) acc
  = true.
Proof.
  revert acc. induction moves as [|m rest IH]; intros acc; simpl.
  - clear. num_order.
  - specialize (IH (Num.min acc (val m))).
    revert IH. generalize (fold_left (fun best m0 => Num.min best (val m0))
                             rest (Num.min acc (val m))).
    intros W HW. num_order.
Qed.

(** The maximizing loop, entered with bound [alpha0]: its result
    brackets the maximum of the children's exhaustive values. *)
Lemma maxLoop_bracket rec (val : nat -> num) moves board alpha0 beta :
  (forall m, m ∈ moves -> arrGet board m = JNull) ->
  (forall m a, m ∈ moves -> Num.leb beta a = false ->
     exists r, rec (arrSet board m O) a beta = Some (r, arrSet board m O)
               /\ bracket a beta (val m) r) ->
  forall best V,
    Num.leb beta (Num.max alpha0 best) = false ->
    maxInv alpha0 best V ->
    exists score,
      maxLoop rec moves board best (Num.max alpha0 best) beta
      = Some (score, board)
      /\ bracket alpha0 beta
           (fold_left (fun b m => Num.max b (val m)) moves V) score.
Proof.
  induction moves as [|m rest IH]; intros Hnull Hrec best V Hab Hinv;
    simpl.
  - exists best. split; [reflexivity|]. now apply max_end.
  - destruct (Hrec m (Num.max alpha0 best)) as (r & Hr & Hbr);
      [left | assumption |].
    rewrite Hr. rewrite arrSet_undo by (apply Hnull; left).
    destruct (Num.leb beta (Num.max (Num.max alpha0 best) r)) eqn:Hbrk.
    + exists (Num.max best r). split; [reflexivity|].
      eapply max_step_break; eauto. apply fold_max_ge.
    + destruct (max_step_cont _ _ _ _ _ _ Hab Hinv Hbr Hbrk)
        as [Halpha Hinv'].
      rewrite Halpha. apply IH.
      * intros k Hk. apply Hnull. now right.
      * intros k a Hk. apply Hrec. now right.
      * now rewrite <- Halpha.
      * assumption.
Qed.

Lemma minLoop_bracket rec (val : nat -> num) moves board alpha beta0 :
  (forall m, m ∈ moves -> arrGet board m = JNull) ->
  (forall m b, m ∈ moves -> Num.leb b alpha = false ->
     exists r, rec (arrSet board m X) alpha b = Some (r, arrSet board m X)
               /\ bracket alpha b (val m) r) ->
  forall best V,
    Num.leb (Num.min beta0 best) alpha = false ->
    minInv beta0 best V ->
    exists score,
      minLoop rec moves board best alpha (Num.min beta0 best)
      = Some (score, board)
      /\ bracket alpha beta0
           (fold_left (fun b m => Num.min b (val m)) moves V) score.
Proof.
  induction moves as [|m rest IH]; intros Hnull Hrec best V Hab Hinv;
    simpl.
  - exists best. split; [reflexivity|]. now apply min_end.
  - destruct (Hrec m (Num.min beta0 best)) as (r & Hr & Hbr);
      [left | assumption |].
    rewrite Hr. rewrite arrSet_undo by (apply Hnull; left).
    destruct (Num.leb (Num.min (Num.min beta0 best) r) alpha) eqn:Hbrk.
    + exists (Num.min best r). split; [reflexivity|].
      eapply min_step_break; eauto. apply fold_min_le.
    + destruct (min_step_cont _ _ _ _ _ _ Hab Hinv Hbr Hbrk)
        as [Hbeta Hinv'].
      rewrite Hbeta. apply IH.
      * intros k Hk. apply Hnull. now right.
      * intros k b Hk. apply Hrec. now right.
      * now rewrite <- Hbeta.
      * assumption.
Qed.

(** For a window with [alpha < beta], the score of [minimax] brackets
    the exhaustive value. *)
Lemma minimax_bracket fuel board depth isMaximizing alpha beta :
  (length (getAvailableMoves board) < fuel)%nat ->
  Num.leb beta alpha = false ->
  exists score,
    minimax fuel board depth isMaximizing alpha beta = Some (score, board)
    /\ bracket alpha beta (plain fuel board depth isMaximizing) score.
Proof.
  revert board depth isMaximizing alpha beta.
  induction fuel as [|fuel IH];
    intros board depth isMax alpha beta Hfuel Hab.
  - lia.
  - simpl.
    destruct (truthy (checkWin board O));
      [eexists; split; [reflexivity | apply bracket_exact]|].
    destruct (truthy (checkWin board X));
      [eexists; split; [reflexivity | apply bracket_exact]|].
    destruct (checkDraw board);
      [eexists; split; [reflexivity | apply bracket_exact]|].
    destruct isMax.
    + pose proof (fun H1 H2 =>
        maxLoop_bracket
          (fun b a be => minimax fuel b (depth + 1) false a be)
          (fun m => plain fuel (arrSet board m O) (depth + 1) false)
          (getAvailableMoves board) board alpha beta H1 H2 NegInf NegInf)
        as Hloop.
      rewrite max_NegInf in Hloop. apply Hloop.
      * intros m Hm. now apply getAvailableMoves_elem in Hm.
      * intros m a Hm Ha. apply IH; [|assumption].
        pose proof (getAvailableMoves_fill board m O Hm O_not_null). lia.
      * assumption.
      * apply maxInv_start.
    + pose proof (fun H1 H2 =>
        minLoop_bracket
          (fun b a be => minimax fuel b (depth + 1) true a be)
          (fun m => plain fuel (arrSet board m X) (depth + 1) true)
          (getAvailableMoves board) board alpha beta H1 H2 PosInf PosInf)
        as Hloop.
      rewrite min_PosInf in Hloop. apply Hloop.
      * intros m Hm. now apply getAvailableMoves_elem in Hm.
      * intros m b Hm Hb. apply IH; [|assumption].
        pose proof (getAvailableMoves_fill board m X Hm X_not_null). lia.
      * assumption.
      * apply minInv_start.
Qed.

Lemma fold_left_ext_elem {A B : Type} (f g : A -> B -> A) (l : list B) a :
  (forall x b, b ∈ l -> f x b = g x b) ->
  fold_left f l a = fold_left g l a.
Proof.
  revert a. induction l as [|b l IH]; intros a H; simpl; [reflexivity|].
  rewrite H by left. apply IH. intros x c Hc. apply H. now right.
Qed.

(** The exhaustive value does not depend on the fuel, once there is
    enough of it. *)
Lemma plain_fuel fuel1 fuel2 board depth isMaximizing :
  (length (getAvailableMoves board) < fuel1)%nat ->
  (length (getAvailableMoves board) < fuel2)%nat ->
  plain fuel1 board depth isMaximizing = plain fuel2 board depth isMaximizing.
Proof.
  revert fuel2 board depth isMaximizing.
  induction fuel1 as [|fuel1 IH];
    intros fuel2 board depth isMax H1 H2; [lia|].
  destruct fuel2 as [|fuel2]; [lia|]. simpl.
  destruct (truthy (checkWin board O)); [reflexivity|].
  destruct (truthy (checkWin board X)); [reflexivity|].
  destruct (checkDraw board); [reflexivity|].
  destruct isMax; apply fold_left_ext_elem; intros best m Hm; f_equal.
  - pose proof (getAvailableMoves_fill board m O Hm O_not_null).
    apply IH; lia.
  - pose proof (getAvailableMoves_fill board m X Hm X_not_null).
    apply IH; lia.
Qed.

(** C3. Called with the window (-Infinity, +Infinity), [minimax] with
    alpha-beta pruning returns the score of the exhaustive minimax
    evaluation of the same position, for every board, depth and side
    to act. *)
Theorem minimax_pruning_exact (board : list jsval) (depth : Z)
    (isMaximizing : bool) (extra : nat) :
  minimax (minimaxFuel board + extra) board depth isMaximizing NegInf PosInf
  = Some (plainMinimax board depth isMaximizing, board).
Proof.
  destruct (minimax_bracket (minimaxFuel board + extra) board depth
              isMaximizing NegInf PosInf) as (score & Hs & Hb).
  { unfold minimaxFuel. lia. }
  { reflexivity. }
  rewrite Hs. apply bracket_full in Hb. subst score.
  unfold plainMinimax. do 2 f_equal.
  apply plain_fuel; unfold minimaxFuel; lia.
Qed.

End AlphaBeta.

(** ** The optimal strategy in play *)

Section PlayFacts.

Import Rules AI Play.

Lemma legal_available board (i : nat) :
  legal board i <-> i ∈ getAvailableMoves board.
Proof.
  unfold legal, validateMoveByIndex.
  rewrite getAvailableMoves_elem, Nat2Z.id.
  destruct (Z.ltb_spec (Z.of_nat i) 0); [lia|].
  destruct (Z.gtb_spec (Z.of_nat i) 8); simpl.
  - split; [discriminate | lia].
  - rewrite strictEq_eq. intuition lia.
Qed.

Lemma anyb_spec {A : Type} (f : A -> bool) (l : list A) :
  anyb f l = true <-> exists x, x ∈ l /\ f x = true.
Proof.
  induction l as [|a l IH]; simpl.
  - split; [discriminate | intros (x & Hx & _); inversion Hx].
  - destruct (f a) eqn:E.
    + split; [intros _; exists a; split; [left | assumption] | reflexivity].
    + rewrite IH. split.
      * intros (x & Hx & Hf). exists x. split; [now right | assumption].
      * intros (x & Hx & Hf). inversion Hx; subst; [congruence | eauto].
Qed.

Lemma allb_spec {A : Type} (f : A -> bool) (l : list A) :
  allb f l = true <-> forall x, x ∈ l -> f x = true.
Proof.
  induction l as [|a l IH]; simpl.
  - split; [intros _ x Hx; inversion Hx | reflexivity].
  - destruct (f a) eqn:E.
    + rewrite IH. split.
      * intros H x Hx. inversion Hx; subst; auto.
      * intros H x Hx. apply H. now right.
    + split; [discriminate|]. intros H. rewrite <- E. apply H. left.
Qed.

(** The searches decide the two notions. *)
Lemma neverLosesb_sound n board :
  neverLosesb n board = true -> neverLoses board.
Proof.
  revert board. induction n as [|n IH]; intros board; cbn [neverLosesb];
    [discriminate|].
  destruct (String.eqb_spec (getGameResult board) "ONGOING") as [Ho|Ho];
    [|discriminate].
  destruct (getMinimaxMove board) as [[m|]|] eqn:Hm; try discriminate.
  destruct (validateMoveByIndex board (Z.of_nat m)) eqn:Hl; [|discriminate].
  cbv zeta.
  destruct (String.eqb_spec (getGameResult (arrSet board m O)) "PLAYER_WON")
    as [Hw|Hw]; [discriminate|].
  destruct (String.eqb_spec (getGameResult (arrSet board m O)) "ONGOING")
    as [Ho1|Ho1].
  - rewrite allb_spec. intros Hall.
    apply (holds_move board m); try assumption.
    + intros i _ Hi. apply legal_available in Hi.
      specialize (Hall i Hi). cbv beta in Hall.
      destruct (String.eqb_spec
                  (getGameResult (arrSet (arrSet board m O) i X))
                  "PLAYER_WON"); [discriminate | assumption].
    + intros i _ Hi Ho2. apply legal_available in Hi.
      specialize (Hall i Hi). cbv beta in Hall.
      unfold ongoing in Ho2. rewrite Ho2 in Hall.
      change (String.eqb "ONGOING" "PLAYER_WON") with false in Hall.
      change (String.eqb "ONGOING" "ONGOING") with true in Hall.
      cbv iota in Hall. now apply IH.
  - intros _.
    apply (holds_move board m); try assumption;
      intros i Hc; contradiction.
Qed.

Lemma neverLosesb_complete board :
  neverLoses board ->
  forall n, (length (getAvailableMoves board) < n)%nat ->
  neverLosesb n board = true.
Proof.
  induction 1 as [board m Ho Hm Hl Hw Hx _ IH];
    intros n Hn; (destruct n as [|n]; [lia|]); cbn [neverLosesb].
  pose proof Hl as Hav. apply legal_available in Hav.
  unfold ongoing in Ho. rewrite Ho, Hm.
  change (String.eqb "ONGOING" "ONGOING") with true. cbv iota.
  unfold legal in Hl. rewrite Hl. cbv zeta.
  destruct (String.eqb_spec (getGameResult (arrSet board m O)) "PLAYER_WON")
    as [Hw1|_]; [contradiction|].
  destruct (String.eqb_spec (getGameResult (arrSet board m O)) "ONGOING")
    as [Ho1|_]; [|reflexivity].
  apply allb_spec. intros i Hi. cbv beta.
  pose proof Hi as Hi'. apply legal_available in Hi'.
  destruct (String.eqb_spec
              (getGameResult (arrSet (arrSet board m O) i X)) "PLAYER_WON")
    as [Hw2|_]; [now apply (Hx i) in Hw2|].
  destruct (String.eqb_spec
              (getGameResult (arrSet (arrSet board m O) i X)) "ONGOING")
    as [Ho2|_]; [|reflexivity].
  apply (IH i); try assumption.
  pose proof (getAvailableMoves_fill _ i X Hi X_not_null).
  pose proof (getAvailableMoves_fill _ m O Hav O_not_null).
  lia.
Qed.

Lemma xForcesb_sound n xToMove board :
  xForcesb n xToMove board = true ->
  xForces (if xToMove then X else O) board.
Proof.
  revert xToMove board.
  induction n as [|n IH]; intros xToMove board; simpl; [discriminate|].
  destruct (String.eqb_spec (getGameResult board) "PLAYER_WON") as [Hw|Hw].
  - intros _. now apply xf_won.
  - destruct (String.eqb_spec (getGameResult board) "ONGOING") as [Ho|Ho];
      [|discriminate].
    destruct xToMove.
    + rewrite anyb_spec. intros (i & Hi & Hb).
      apply (xf_X board i); auto.
      * now apply legal_available.
      * now apply (IH false).
    + rewrite allb_spec. intros H.
      apply xf_O; auto.
      intros i Hi. apply (IH true). apply H. now apply legal_available.
Qed.

Lemma xForcesb_complete p board :
  xForces p board ->
  forall n, (length (getAvailableMoves board) < n)%nat ->
  xForcesb n (strictEq p X) board = true.
Proof.
  induction 1 as [p board Hw | board i Ho Hi Hx IH | board Ho Hall IH];
    intros n Hn; (destruct n as [|n]; [lia|]); cbn [xForcesb].
  - rewrite Hw. reflexivity.
  - unfold ongoing in Ho. rewrite Ho. simpl.
    apply anyb_spec. exists i.
    apply legal_available in Hi. split; [assumption|].
    apply (IH n).
    pose proof (getAvailableMoves_fill _ i X Hi X_not_null). lia.
  - unfold ongoing in Ho. rewrite Ho. simpl.
    apply allb_spec. intros i Hi.
    apply (IH i); [now apply legal_available|].
    pose proof (getAvailableMoves_fill _ i O Hi O_not_null). lia.
Qed.

End PlayFacts.

Section Reachable.

Import Rules AI Play.

Lemma legal_lookup board (i : nat) :
  legal board i -> board !! i = Some JNull.
Proof.
  intros H. apply legal_available, getAvailableMoves_elem in H.
  destruct H as [_ H]. unfold arrGet in H.
  destruct (board !! i); simpl in H; congruence.
Qed.

Lemma arrSet_legal board (i : nat) (v : jsval) :
  legal board i -> arrSet board i v = <[i := v]> board.
Proof.
  intros H. apply legal_lookup, lookup_lt_Some in H.
  unfold arrSet. apply Nat.ltb_lt in H. now rewrite H.
Qed.

Lemma count_insert board (i : nat) (v w : jsval) :
  board !! i = Some JNull -> w <> JNull ->
  count w (<[i := v]> board)
  = if strictEq v w then S (count w board) else count w board.
Proof.
  intros Hi Hw.
  rewrite insert_take_drop by (now apply lookup_lt_Some in Hi).
  assert (Hb : count w board
               = count w (take i board ++ JNull :: drop (S i) board))
    by (now rewrite take_drop_middle).
  rewrite Hb.
  unfold count. rewrite !filter_app, !filter_cons, !length_app.
  assert (strictEq JNull w = false) as Hn
    by (apply strictEq_neq; congruence).
  destruct (strictEq v w) eqn:E; repeat case_decide; simpl;
    congruence || lia.
Qed.

(** What legal play keeps true of the board: nine slots, each empty or
    a marker, and the markers of the two sides level before a move of
    'X', one ahead for 'X' before a move of 'O'. *)
Lemma reachable_invariant board p :
  reachable board p ->
  length board = 9%nat /\ Forall marker board
  /\ count X board = (if strictEq p O then S (count O board)
                      else count O board).
Proof.
  induction 1 as [| board i _ (IHl & IHf & IHc) _ Hi
                  | board i _ (IHl & IHf & IHc) _ Hi].
  - split; [reflexivity|]. split; [|reflexivity].
    repeat constructor.
  - rewrite arrSet_legal by assumption. apply legal_lookup in Hi.
    split; [now rewrite length_insert|]. split.
    + apply Forall_insert; [assumption | right; now left].
    + rewrite !count_insert by (assumption || discriminate).
      simpl in *. lia.
  - rewrite arrSet_legal by assumption. apply legal_lookup in Hi.
    split; [now rewrite length_insert|]. split.
    + apply Forall_insert; [assumption | right; now right].
    + rewrite !count_insert by (assumption || discriminate).
      simpl in *. lia.
Qed.

Lemma allBoards_elem board :
  Forall marker board -> board ∈ allBoards (length board).
Proof.
  induction 1 as [|cell board Hc _ IH]; simpl.
  - left.
  - apply list_elem_of_In, in_flat_map. exists board.
    split; [now apply list_elem_of_In|].
    destruct Hc as [->|[->| ->]]; simpl; auto.
Qed.

Lemma reachable_oTurnBoards board :
  reachable board O -> board ∈ oTurnBoards.
Proof.
  intros H. apply reachable_invariant in H as (Hl & Hf & Hc).
  unfold oTurnBoards. apply list_elem_of_filter. split.
  - simpl in Hc. rewrite Hc. apply Nat.eqb_refl.
  - rewrite <- Hl. now apply allBoards_elem.
Qed.

(** On every candidate board on which the game is open and 'X' has no
    forced win, the strategy never loses: checked by search over the
    2907 boards. *)
Lemma oTurnBoards_checked :
  allb (fun b => if String.eqb (getGameResult b) "ONGOING"
                 then if xForcesb gameFuel false b then true
                      else neverLosesb gameFuel b
                 else true) oTurnBoards = true.
Proof. vm_cast_no_check (@eq_refl bool true). Qed.

Lemma neverLoses_unless_lost board :
  reachable board O -> ongoing board -> ~ xForces O board ->
  neverLoses board.
Proof.
  intros Hr Ho Hx.
  apply reachable_oTurnBoards in Hr.
  pose proof (proj1 (allb_spec _ _) oTurnBoards_checked board Hr) as Hc.
  cbv beta in Hc. unfold ongoing in Ho. rewrite Ho in Hc.
  change (String.eqb "ONGOING" "ONGOING") with true in Hc.
  cbv iota in Hc.
  destruct (xForcesb gameFuel false board) eqn:E.
  - exfalso. apply Hx. now apply (xForcesb_sound gameFuel false).
  - now apply (neverLosesb_sound gameFuel).
Qed.

End Reachable.

Section OptimalPlay.

Import Rules AI Play.

Lemma lostBoard_reachable : reachable lostBoard O.
Proof.
  unfold lostBoard.
  apply reach_X; [apply reach_O; [apply reach_X; [apply reach_empty|..]|..]|..];
    reflexivity.
Qed.

Lemma cornerBoard_reachable : reachable cornerBoard O.
Proof.
  unfold cornerBoard. apply reach_X; [apply reach_empty|..]; reflexivity.
Qed.

Lemma cornerBoard_not_lost : ~ xForces O cornerBoard.
Proof.
  intros H. apply xForcesb_complete with (n := gameFuel) in H.
  - vm_compute in H. discriminate H.
  - vm_compute. lia.
Qed.

Lemma first_moves_checked :
  allb (fun i =>
          String.eqb (getGameResult (arrSet emptyBoard i X)) "ONGOING"
          && negb (xForcesb gameFuel false (arrSet emptyBoard i X)))
       (getAvailableMoves emptyBoard) = true.
Proof. vm_compute. reflexivity. Qed.

Lemma neverLoses_after_first_move i :
  legal emptyBoard i -> neverLoses (arrSet emptyBoard i X).
Proof.
  intros Hi.
  pose proof Hi as Hav. apply legal_available in Hav.
  pose proof (proj1 (allb_spec _ _) first_moves_checked i Hav) as Hc.
  cbv beta in Hc. apply andb_true_iff in Hc as [Ho Hx].
  apply String.eqb_eq in Ho. apply negb_true_iff in Hx.
  apply neverLoses_unless_lost.
  - apply reach_X; [apply reach_empty | reflexivity | assumption].
  - exact Ho.
  - intros Hxf. apply xForcesb_complete with (n := gameFuel) in Hxf.
    + change (strictEq O X) with false in Hxf. congruence.
    + pose proof (getAvailableMoves_length (arrSet emptyBoard i X)).
      unfold gameFuel. lia.
Qed.

Lemma lostBoard_loses : ~ neverLoses lostBoard.
Proof.
  intros H. apply neverLosesb_complete with (n := gameFuel) in H.
  - vm_compute in H. discriminate H.
  - vm_compute. lia.
Qed.

(** C1, as stated for every reachable position with 'O' to move, fails:
    after X 0, O 1, X 4 the game is open and 'O' is to move, and the
    moves of [getMinimaxMove] do not save it: it answers 8, 'X' plays
    3, it answers 2, 'X' plays 5 and holds the line 3, 4, 5. *)
Lemma minimax_loses_lost_position :
  ~ (forall board, reachable board O -> ongoing board -> neverLoses board)
  /\ (reachable lostBoard O /\ ongoing lostBoard
      /\ getMinimaxMove lostBoard = Some (Some 8%nat)
      /\ ongoing (arrSet lostBoard 8 O)
      /\ legal (arrSet lostBoard 8 O) 3
      /\ ongoing (arrSet (arrSet lostBoard 8 O) 3 X)
      /\ getMinimaxMove (arrSet (arrSet lostBoard 8 O) 3 X)
         = Some (Some 2%nat)
      /\ ongoing (arrSet (arrSet (arrSet lostBoard 8 O) 3 X) 2 O)
      /\ legal (arrSet (arrSet (arrSet lostBoard 8 O) 3 X) 2 O) 5
      /\ getGameResult
           (arrSet (arrSet (arrSet (arrSet lostBoard 8 O) 3 X) 2 O) 5 X)
         = "PLAYER_WON").
Proof.
  split.
  - intros H. apply lostBoard_loses.
    apply H; [exact lostBoard_reachable | reflexivity].
  - split; [exact lostBoard_reachable|].
    repeat split; vm_compute; reflexivity.
Qed.

(** C1, amended. On every open position that legal alternating play
    reaches with 'O' to move and in which 'X' has no forced win,
    [getMinimaxMove] returns a legal move, and 'O' moving by
    [getMinimaxMove] from there on never loses, whatever 'X' plays; this
    holds after every first move of 'X' on the empty board; and the
    strategy playing both sides from the empty board ends in a draw. *)
Theorem minimax_never_loses_unless_lost :
  (forall board, reachable board O -> ongoing board ->
                 ~ xForces O board -> neverLoses board)
  /\ (forall i, legal emptyBoard i -> neverLoses (arrSet emptyBoard i X))
  /\ selfPlay gameFuel emptyBoard true = Some "DRAW".
Proof.
  split; [|split].
  - exact neverLoses_unless_lost.
  - exact neverLoses_after_first_move.
  - vm_compute. reflexivity.
Qed.

Lemma minimax_never_loses_witness :
  reachable cornerBoard O /\ ongoing cornerBoard
  /\ ~ xForces O cornerBoard
  /\ neverLoses cornerBoard.
Proof.
  split; [exact cornerBoard_reachable|].
  split; [reflexivity|].
  split; [exact cornerBoard_not_lost|].
  exact (proj1 minimax_never_loses_unless_lost cornerBoard
           cornerBoard_reachable eq_refl cornerBoard_not_lost).
Defined.

End OptimalPlay.

(** ** The board object *)

Section BoardFacts.

Import BoardState.

Lemma isValid_spec row col :
  isValid row col = true <-> 0 <= row <= 2 /\ 0 <= col <= 2.
Proof.
  unfold isValid. rewrite !andb_true_iff, !Z.geb_le, !Z.leb_le. lia.
Qed.

Lemma contents_Some (h : gmap nat (list jsval)) l a :
  h !! l = Some a -> contents h l = a.
Proof. unfold contents. now intros ->. Qed.

Lemma arrGetZ_null_lookup a (i : Z) :
  arrGetZ a i = JNull -> 0 <= i /\ a !! Z.to_nat i = Some JNull.
Proof.
  unfold arrGetZ, arrGet.
  destruct (Z.ltb_spec i 0); [discriminate|].
  destruct (a !! Z.to_nat i); simpl; [|discriminate].
  intros ->. auto.
Qed.

Lemma placeMove_rejects st row col player :
  isValid row col = false
  \/ arrGetZ (contents (heap st) (cells (this st))) (toIndex row col)
     <> JNull
  \/ (player <> X /\ player <> O) ->
  placeMove st row col player = (false, st).
Proof.
  unfold placeMove, isEmpty.
  destruct (isValid row col); simpl; [|reflexivity].
  intros [H | [H | [H1 H2]]]; [discriminate | |].
  - apply strictEq_neq in H. now rewrite H.
  - destruct (strictEq _ JNull); simpl; [|reflexivity].
    apply strictEq_neq in H1, H2. now rewrite H1, H2.
Qed.

Lemma placeMove_accepts st row col player :
  isValid row col = true ->
  arrGetZ (contents (heap st) (cells (this st))) (toIndex row col) = JNull ->
  player = X \/ player = O ->
  exists a,
    heap st !! cells (this st) = Some a
    /\ a !! Z.to_nat (toIndex row col) = Some JNull
    /\ placeMove st row col player
       = (true,
          {| heap := <[cells (this st) :=
                         <[Z.to_nat (toIndex row col) := player]> a]>
                       (heap st);
             this := this st |}).
Proof.
  intros Hv He Hp.
  unfold placeMove, isEmpty. rewrite Hv, He. simpl.
  assert (negb (strictEq player X) && negb (strictEq player O) = false)
    as -> by (destruct Hp as [-> | ->]; reflexivity).
  apply arrGetZ_null_lookup in He as [Hi He].
  unfold contents in He. unfold store.
  destruct (heap st !! cells (this st)) as [a|] eqn:Ha; simpl in He;
    [|discriminate].
  exists a. split; [reflexivity|]. split; [assumption|].
  do 3 f_equal. unfold arrSetZ, arrSet.
  apply Z.ltb_ge in Hi. rewrite Hi.
  apply lookup_lt_Some, Nat.ltb_lt in He. now rewrite He.
Qed.

Lemma toCoords_out_of_range index :
  index < 0 \/ index > 8 ->
  isValid (fst (toCoords index)) (snd (toCoords index)) = false.
Proof.
  intros H. unfold toCoords. simpl.
  destruct (isValid (index / 3) (Z.rem index 3)) eqn:E; [|reflexivity].
  apply isValid_spec in E. destruct E as [[E1 E2] _]. exfalso.
  destruct H as [H|H].
  - assert (index / 3 < 0) by (apply Z.div_lt_upper_bound; lia). lia.
  - assert (3 <= index / 3) by (apply Z.div_le_lower_bound; lia). lia.
Qed.

Lemma toCoords_in_range index :
  0 <= index <= 8 ->
  isValid (fst (toCoords index)) (snd (toCoords index)) = true
  /\ toIndex (fst (toCoords index)) (snd (toCoords index)) = index.
Proof.
  intros H.
  destruct (toIndex_toCoords index H) as (H1 & H2 & H3).
  split; [|assumption]. apply isValid_spec. lia.
Qed.

End BoardFacts.

Section BoardClaims.

Import BoardState.

(** C4. Placement is rejected, with [false] and the whole state (every
    cell, the current player, the status) as before, when the position
    is out of range, the slot is occupied, or the token is neither 'X'
    nor 'O'; otherwise it answers [true] and writes the token to the
    target slot and to nothing else.  By coordinates and by index. *)
Theorem placeMove_accept_or_reject (st : state) (row col index : Z)
    (player : jsval) :
  (isValid row col = false
   \/ arrGetZ (contents (heap st) (cells (this st))) (toIndex row col)
      <> JNull
   \/ (player <> X /\ player <> O) ->
   placeMove st row col player = (false, st))
  /\ (isValid row col = true ->
      arrGetZ (contents (heap st) (cells (this st))) (toIndex row col)
      = JNull ->
      player = X \/ player = O ->
      exists a,
        heap st !! cells (this st) = Some a
        /\ placeMove st row col player
           = (true,
              {| heap := <[cells (this st) :=
                             <[Z.to_nat (toIndex row col) := player]> a]>
                           (heap st);
                 this := this st |}))
  /\ (index < 0 \/ index > 8
      \/ arrGetZ (contents (heap st) (cells (this st))) index <> JNull
      \/ (player <> X /\ player <> O) ->
      placeMoveByIndex st index player = (false, st))
  /\ (0 <= index <= 8 ->
      arrGetZ (contents (heap st) (cells (this st))) index = JNull ->
      player = X \/ player = O ->
      exists a,
        heap st !! cells (this st) = Some a
        /\ placeMoveByIndex st index player
           = (true,
              {| heap := <[cells (this st) :=
                             <[Z.to_nat index := player]> a]> (heap st);
                 this := this st |})).
Proof.
  split; [apply placeMove_rejects|]. split; [|split].
  - intros Hv He Hp.
    destruct (placeMove_accepts st row col player Hv He Hp)
      as (a & Ha & _ & Hpl).
    eauto.
  - intros H. unfold placeMoveByIndex.
    destruct (Z.ltb_spec index 0) as [Hlo|Hlo];
      [apply placeMove_rejects; left; apply toCoords_out_of_range; lia|].
    destruct (Z.ltb_spec 8 index) as [Hhi|Hhi];
      [apply placeMove_rejects; left; apply toCoords_out_of_range; lia|].
    destruct (toCoords_in_range index) as [Hv Hidx]; [lia|].
    apply placeMove_rejects. right. rewrite Hidx.
    destruct H as [H | [H | [H | H]]]; [lia | lia | now left | now right].
  - intros Hi He Hp. unfold placeMoveByIndex.
    destruct (toCoords_in_range index Hi) as [Hv Hidx].
    rewrite <- Hidx in He.
    destruct (placeMove_accepts st _ _ player Hv He Hp)
      as (a & Ha & _ & Hpl).
    rewrite Hidx in Hpl. eauto.
Qed.

Lemma alloc_fresh (h : gmap nat (list jsval)) a l :
  h !! l = Some a -> fresh (dom h) <> l.
Proof.
  intros Hl Heq.
  apply (is_fresh (dom h)). rewrite Heq.
  apply elem_of_dom. eauto.
Qed.

Lemma store_other (h : gmap nat (list jsval)) l l' i v :
  l <> l' -> store h l i v !! l' = h !! l'.
Proof.
  intros Hne. unfold store.
  destruct (h !! l); [|reflexivity]. now apply lookup_insert_ne.
Qed.

Lemma callerWrites_other st l ws :
  l <> cells (this st) ->
  this (callerWrites st l ws) = this st
  /\ heap (callerWrites st l ws) !! cells (this st)
     = heap st !! cells (this st).
Proof.
  intros Hne. unfold callerWrites.
  revert st Hne. induction ws as [|w ws IH]; intros st Hne; simpl.
  - auto.
  - destruct (IH (callerWrite st l (fst w) (snd w)) Hne) as [H1 H2].
    simpl in *. rewrite H1, H2. split; [reflexivity|].
    now apply store_other.
Qed.

Lemma getBoard_eq st a :
  heap st !! cells (this st) = Some a ->
  getBoard st
  = (fresh (dom (heap st)),
     {| heap := <[fresh (dom (heap st)) := a]> (heap st);
        this := this st |}).
Proof.
  intros Ha. unfold getBoard, alloc.
  now rewrite (contents_Some _ _ _ Ha).
Qed.

(** C9. [getBoard()] returns a new array with the slots of the board;
    whatever the caller then writes to that array, at any indices, the
    reads of the board ([getCell], [getCellByIndex], a later
    [getBoard()]) return what they returned before. *)
Theorem getBoard_copy_independent (st : state) (a : list jsval)
    (ws : list (Z * jsval)) :
  heap st !! cells (this st) = Some a ->
  contents (heap (snd (getBoard st))) (fst (getBoard st)) = a
  /\ fst (getBoard st) <> cells (this st)
  /\ (forall row col,
        getCell (callerWrites (snd (getBoard st)) (fst (getBoard st)) ws)
                row col
        = getCell st row col)
  /\ (forall index,
        getCellByIndex
          (callerWrites (snd (getBoard st)) (fst (getBoard st)) ws) index
        = getCellByIndex st index)
  /\ contents
       (heap (snd (getBoard
          (callerWrites (snd (getBoard st)) (fst (getBoard st)) ws))))
       (fst (getBoard
          (callerWrites (snd (getBoard st)) (fst (getBoard st)) ws)))
     = a.
Proof.
  intros Ha.
  pose proof (alloc_fresh _ _ _ Ha) as Hfresh.
  rewrite (getBoard_eq st a Ha). cbn [fst snd].
  set (l := fresh (dom (heap st))) in *.
  set (st1 := {| heap := <[l := a]> (heap st); this := this st |}).
  assert (Hc1 : heap st1 !! cells (this st1) = Some a)
    by (simpl; now rewrite lookup_insert_ne).
  assert (Hne1 : l <> cells (this st1)) by assumption.
  destruct (callerWrites_other st1 l ws Hne1) as [Hthis Hheap].
  rewrite Hc1 in Hheap. rewrite <- Hthis in Hheap.
  split; [unfold contents; simpl; now rewrite lookup_insert_eq|].
  split; [assumption|].
  split; [|split].
  - intros row col. unfold getCell.
    now rewrite (contents_Some _ _ _ Hheap), (contents_Some _ _ _ Ha).
  - intros index. unfold getCellByIndex.
    now rewrite (contents_Some _ _ _ Hheap), (contents_Some _ _ _ Ha).
  - rewrite (getBoard_eq _ a Hheap). cbn [fst snd heap].
    unfold contents. now rewrite lookup_insert_eq.
Qed.

Lemma getBoard_copy_independent_witness :
  heap (initialize ∅) !! cells (this (initialize ∅))
  = Some (replicate 9 JNull)
  /\ getCellByIndex
       (callerWrites (snd (getBoard (initialize ∅)))
          (fst (getBoard (initialize ∅))) [(0, JStr "MODIFIED")]) 0
     = getCellByIndex (initialize ∅) 0.
Proof.
  assert (H : heap (initialize ∅) !! cells (this (initialize ∅))
              = Some (replicate 9 JNull)) by reflexivity.
  split; [exact H|].
  exact (proj1 (proj2 (proj2 (proj2
    (getBoard_copy_independent (initialize ∅) (replicate 9 JNull)
       [(0, JStr "MODIFIED")] H)))) 0).
Defined.

End BoardClaims.

(** ** Reset while the computer's move is pending *)

Section EngineFacts.

Import BoardState GameEngine.

(** C2 on the code. Start a game, let the player move (the computer's
    move is now waiting for its timer), and reset.  Right after the
    reset the state is the clean one, with the continuation still
    waiting; when the timer fires, the continuation takes the empty
    post-reset board, places an 'O' on it and passes the turn to 'O'.
    The state observed after that is not the clean reset state. *)
Theorem reset_with_pending_move_is_overwritten (r : Q) :
  (exists e,
     run newEngine [InitializeGame (JStr "HARD"); HandlePlayerMove 0 0;
                    ResetGame] = Some e
     /\ pendingAI e = 1%nat
     /\ cleanReset (getState e))
  /\ (exists e,
     run newEngine [InitializeGame (JStr "HARD"); HandlePlayerMove 0 0;
                    ResetGame; TimerFires r] = Some e
     /\ snapBoard (getState e) = arrSet emptyBoard 0 O
     /\ snapStoreBoard (getState e) = arrSet emptyBoard 0 O
     /\ snapCurrentPlayer (getState e) = O
     /\ snapStoreCurrentPlayer (getState e) = O
     /\ ~ cleanReset (getState e)).
Proof.
  split.
  - eexists. split; [vm_compute; reflexivity|].
    split; [reflexivity|]. repeat split.
  - eexists. split; [vm_compute; reflexivity|].
    split; [reflexivity|]. split; [reflexivity|].
    split; [reflexivity|]. split; [reflexivity|].
    intros (H & _). discriminate H.
Qed.

End EngineFacts.

(** ** The repository's test vectors, on the embedding *)

Section TestVectors.

Import Rules AI BoardState.

Example test_takes_winning_move :
  getMinimaxMove [X; X; JNull; O; O; JNull; X; JNull; JNull]
  = Some (Some 5%nat).
Proof. vm_compute. reflexivity. Qed.

Example test_blocks_player :
  getMinimaxMove [X; X; JNull; O; JNull; JNull; JNull; JNull; JNull]
  = Some (Some 2%nat).
Proof. vm_compute. reflexivity. Qed.

Example test_full_board_no_move :
  getMinimaxMove [X; O; X; X; O; O; O; X; X] = Some None.
Proof. vm_compute. reflexivity. Qed.

Example test_center_after_corner :
  getMinimaxMove [X; JNull; JNull; JNull; JNull; JNull; JNull; JNull; JNull]
  = Some (Some 4%nat).
Proof. vm_compute. reflexivity. Qed.

Example test_prefers_win_over_block :
  getMinimaxMove [O; O; JNull; X; X; JNull; JNull; JNull; JNull]
  = Some (Some 2%nat).
Proof. vm_compute. reflexivity. Qed.

Example test_minimax_draw_score :
  minimax 1 [X; O; X; X; O; O; O; X; X] 0 true NegInf PosInf
  = Some (Fin 0, [X; O; X; X; O; O; O; X; X]).
Proof. reflexivity. Qed.

Example test_row_win :
  getGameResult [X; X; X; O; O; JNull; JNull; JNull; JNull] = "PLAYER_WON"
  /\ checkWin [X; X; X; O; O; JNull; JNull; JNull; JNull] X
     = Some (0, 1, 2)%nat.
Proof. split; reflexivity. Qed.

Example test_draw :
  getGameResult [X; O; X; X; O; O; O; X; X] = "DRAW".
Proof. reflexivity. Qed.

Example test_toCoords : toCoords 4 = (1, 1) /\ toCoords 8 = (2, 2).
Proof. split; reflexivity. Qed.

Example test_rejects_bad_symbol :
  fst (placeMove (initialize ∅) 0 0 (JStr "Z")) = false
  /\ fst (placeMove (initialize ∅) (-1) 0 X) = false
  /\ fst (placeMove (initialize ∅) 0 3 X) = false
  /\ fst (placeMove (initialize ∅) 1 1 O) = true.
Proof. repeat split; reflexivity. Qed.

(** The array of a board built by [initialize] is live and has nine
    empty slots. *)
Lemma initialize_cells_live (h : gmap nat (list jsval)) :
  heap (initialize h) !! cells (this (initialize h))
  = Some (replicate 9 JNull).
Proof. unfold initialize, alloc. simpl. apply lookup_insert_eq. Qed.

End TestVectors.

(** * Further properties of the code *)

(** ** Rules: order of the scan, winners, winning moves *)

Section MoreRules.

Import Rules Play.

Lemma firstCombo_prefix combos board player combo :
  firstCombo combos board player = Some combo
  <-> exists before after,
        combos = before ++ combo :: after
        /\ comboHeldBy board player combo = true
        /\ Forall (fun c => comboHeldBy board player c = false) before.
Proof.
  induction combos as [|c rest IH]; simpl.
  - split; [discriminate|].
    intros (before & after & H & _). now destruct before.
  - destruct (comboHeldBy board player c) eqn:E.
    + split.
      * intros [= <-]. exists [], rest. auto.
      * intros (before & after & H & Hc & Hb).
        destruct before as [|c' before]; simpl in H.
        -- now injection H as -> _.
        -- injection H as -> _. inversion Hb; congruence.
    + rewrite IH. split.
      * intros (before & after & -> & Hc & Hb).
        exists (c :: before), after. auto.
      * intros (before & after & H & Hc & Hb).
        destruct before as [|c' before]; simpl in H.
        -- injection H as -> _. congruence.
        -- injection H as -> ->. inversion Hb; subst. eauto.
Qed.

(** X1. [checkWin] reports the first combination, in the order rows,
    columns, diagonals, whose three slots hold the player's marker:
    the reported one is held and none listed before it is. *)
Theorem checkWin_first_in_order (board : list jsval) (player : jsval)
    (combo : nat * nat * nat) :
  checkWin board player = Some combo
  <-> exists before after,
        WIN_COMBINATIONS = before ++ combo :: after
        /\ comboHeldBy board player combo = true
        /\ Forall (fun c => comboHeldBy board player c = false) before.
Proof. apply firstCombo_prefix. Qed.

Lemma ongoing_no_line board :
  ongoing board -> ~ hasLine board X /\ ~ hasLine board O.
Proof.
  unfold ongoing, getGameResult. rewrite <- !checkWin_falsy.
  destruct (truthy (checkWin board X)); [discriminate|].
  destruct (truthy (checkWin board O)); [discriminate|]. auto.
Qed.

(** A line held after a write of another value was held before it. *)
Lemma hasLine_arrSet_other board (i : nat) (v p : jsval) :
  v <> p -> hasLine (arrSet board i v) p -> hasLine board p.
Proof.
  intros Hne (a & b & c & Hin & Ha & Hb & Hc).
  rewrite arrGet_arrSet in Ha, Hb, Hc.
  exists a, b, c. split; [assumption|].
  destruct (i =? a)%nat, (i =? b)%nat, (i =? c)%nat; auto; congruence.
Qed.

Lemma reachable_line_of_last_mover board p :
  reachable board p ->
  (hasLine board X -> p = O) /\ (hasLine board O -> p = X).
Proof.
  induction 1 as [| board i _ _ Ho _ | board i _ _ Ho _].
  - split; intros (a & b & c & Hin & Ha & _); exfalso;
      simpl in Hin;
      repeat (destruct Hin as [Hin|Hin];
              [injection Hin as <- <- <-; discriminate Ha|]);
      contradiction.
  - apply ongoing_no_line in Ho as [_ HO]. split; [reflexivity|].
    intros H. exfalso. apply HO.
    apply (hasLine_arrSet_other board i X O); [discriminate | assumption].
  - apply ongoing_no_line in Ho as [HX _]. split; [|reflexivity].
    intros H. exfalso. apply HX.
    apply (hasLine_arrSet_other board i O X); [discriminate | assumption].
Qed.

(** X2. On every board that legal alternating play reaches, only the
    side that moved last can hold a winning line; so the two sides
    never hold one at the same time, and the side to move holds none. *)
Theorem reachable_single_winner (board : list jsval) (p : jsval) :
  reachable board p ->
  ~ (hasLine board X /\ hasLine board O) /\ ~ hasLine board p.
Proof.
  intros Hr.
  destruct (reachable_line_of_last_mover board p Hr) as [HX HO].
  assert (Hp : p = X \/ p = O) by (destruct Hr; auto).
  split.
  - intros [H1 H2]. specialize (HX H1). specialize (HO H2).
    subst p. discriminate.
  - intros H. destruct Hp as [-> | ->].
    + specialize (HX H). discriminate.
    + specialize (HO H). discriminate.
Qed.

Lemma reachable_single_winner_witness :
  reachable cornerBoard O
  /\ ~ (hasLine cornerBoard X /\ hasLine cornerBoard O)
  /\ ~ hasLine cornerBoard O.
Proof.
  split; [exact cornerBoard_reachable|].
  exact (reachable_single_winner cornerBoard O cornerBoard_reachable).
Defined.

End MoreRules.

Section WinningMove.

Import Rules Play Invariants.

Ltac cell_cases x p :=
  let E1 := fresh "E" in let E2 := fresh "E" in
  destruct (strictEq x p) eqn:E1; destruct (strictEq x JNull) eqn:E2;
  [ apply strictEq_eq in E1; apply strictEq_eq in E2
  | apply strictEq_eq in E1; apply strictEq_neq in E2
  | apply strictEq_neq in E1; apply strictEq_eq in E2
  | apply strictEq_neq in E1; apply strictEq_neq in E2 ].

(** What the test says of the three slots: one is empty and the other
    two hold the marker. *)
Lemma twoAndEmpty_spec board player a b c :
  twoAndEmpty board player (a, b, c) = true
  <-> (arrGet board a = JNull /\ arrGet board b = player
       /\ arrGet board c = player /\ player <> JNull)
      \/ (arrGet board a = player /\ arrGet board b = JNull
          /\ arrGet board c = player /\ player <> JNull)
      \/ (arrGet board a = player /\ arrGet board b = player
          /\ arrGet board c = JNull /\ player <> JNull).
Proof.
  unfold twoAndEmpty, countCells. cbn [List.filter].
  cell_cases (arrGet board a) player; cell_cases (arrGet board b) player;
    cell_cases (arrGet board c) player; cbn [length Nat.eqb andb];
    (split; [intros H; try discriminate H | intros H]);
    try (exfalso; intuition congruence);
    try reflexivity;
    try (intuition congruence).
Qed.

Lemma winningMoveLoop_Some combos board player (i : nat) :
  winningMoveLoop combos board player = Some i ->
  exists a b c, In (a, b, c) combos
    /\ twoAndEmpty board player (a, b, c) = true
    /\ (i = a \/ i = b \/ i = c)
    /\ arrGet board i = JNull.
Proof.
  induction combos as [|[[a b] c] rest IH]; cbn [winningMoveLoop];
    [discriminate|].
  change ((countCells [arrGet board a; arrGet board b; arrGet board c]
             player =? 2)%nat
          && (countCells [arrGet board a; arrGet board b; arrGet board c]
                JNull =? 1)%nat)
    with (twoAndEmpty board player (a, b, c)).
  destruct (twoAndEmpty board player (a, b, c)) eqn:Ht.
  - destruct (strictEq (arrGet board a) JNull) eqn:Ea;
      [|destruct (strictEq (arrGet board b) JNull) eqn:Eb;
        [|destruct (strictEq (arrGet board c) JNull) eqn:Ec]].
    + intros [= <-]. apply strictEq_eq in Ea.
      exists a, b, c. repeat split; auto. now left.
    + intros [= <-]. apply strictEq_eq in Eb.
      exists a, b, c. repeat split; auto. now left.
    + intros [= <-]. apply strictEq_eq in Ec.
      exists a, b, c. repeat split; auto. now left.
    + intros H. destruct (IH H) as (a' & b' & c' & Hin & Hrest).
      exists a', b', c'. split; [now right | assumption].
  - intros H. destruct (IH H) as (a' & b' & c' & Hin & Hrest).
    exists a', b', c'. split; [now right | assumption].
Qed.

Lemma winningMoveLoop_None combos board player :
  winningMoveLoop combos board player = None ->
  forall combo, In combo combos -> twoAndEmpty board player combo = false.
Proof.
  induction combos as [|[[a b] c] rest IH]; cbn [winningMoveLoop];
    [intros _ combo []|].
  change ((countCells [arrGet board a; arrGet board b; arrGet board c]
             player =? 2)%nat
          && (countCells [arrGet board a; arrGet board b; arrGet board c]
                JNull =? 1)%nat)
    with (twoAndEmpty board player (a, b, c)).
  destruct (twoAndEmpty board player (a, b, c)) eqn:Ht.
  - apply twoAndEmpty_spec in Ht.
    destruct Ht as [(Ha & _) | [(_ & Hb & _) | (_ & _ & Hc & _)]].
    + apply strictEq_eq in Ha. now rewrite Ha.
    + apply strictEq_eq in Hb. rewrite Hb.
      destruct (strictEq (arrGet board a) JNull); discriminate.
    + apply strictEq_eq in Hc. rewrite Hc.
      destruct (strictEq (arrGet board a) JNull); [discriminate|].
      destruct (strictEq (arrGet board b) JNull); discriminate.
  - intros H combo [<- | Hin]; [assumption | now apply IH].
Qed.

Lemma WIN_COMBINATIONS_distinct a b c :
  In (a, b, c) WIN_COMBINATIONS -> a <> b /\ b <> c /\ a <> c.
Proof.
  simpl. intros H.
  repeat (destruct H as [H|H]; [injection H as <- <- <-; lia|]).
  contradiction.
Qed.

(** X3. [getWinningMove] answers with an empty slot that completes a
    line of the player; and it answers [null] only when no empty slot
    completes one (any line present after a placement was there
    before). *)
Theorem getWinningMove_sound_complete (board : list jsval)
    (player : jsval) :
  (forall i, getWinningMove board player = Some i ->
     arrGet board i = JNull /\ hasLine (arrSet board i player) player)
  /\ (getWinningMove board player = None ->
      forall i, arrGet board i = JNull ->
        hasLine (arrSet board i player) player -> hasLine board player).
Proof.
  split.
  - intros i H. apply winningMoveLoop_Some in H
      as (a & b & c & Hin & Ht & Hi & Hnull).
    split; [assumption|].
    exists a, b, c. split; [assumption|].
    rewrite !arrGet_arrSet.
    apply twoAndEmpty_spec in Ht.
    destruct (Nat.eqb_spec i a), (Nat.eqb_spec i b), (Nat.eqb_spec i c);
      subst; intuition congruence.
  - intros Hnone i Hnull (a & b & c & Hin & Ha & Hb & Hc).
    pose proof (winningMoveLoop_None _ _ _ Hnone _ Hin) as Ht.
    pose proof (WIN_COMBINATIONS_distinct a b c Hin) as (Hab & Hbc & Hac).
    rewrite arrGet_arrSet in Ha, Hb, Hc.
    exists a, b, c. split; [assumption|].
    apply not_true_iff_false in Ht.
    destruct (strictEq player JNull) eqn:Ep;
      [apply strictEq_eq in Ep | apply strictEq_neq in Ep].
    + destruct (Nat.eqb_spec i a), (Nat.eqb_spec i b),
        (Nat.eqb_spec i c); subst; repeat split; congruence.
    + destruct (Nat.eqb_spec i a), (Nat.eqb_spec i b),
        (Nat.eqb_spec i c); subst; try congruence; auto;
        exfalso; apply Ht; apply twoAndEmpty_spec; auto 8.
Qed.

End WinningMove.

(** ** The board object: legality, reads after writes, invariants *)

Section MoreBoard.

Import Rules BoardState Play Invariants.

Lemma arrGetZ_nonneg a (i : Z) :
  0 <= i -> arrGetZ a i = arrGet a (Z.to_nat i).
Proof.
  intros H. unfold arrGetZ. apply Z.ltb_ge in H. now rewrite H.
Qed.

Lemma isValid_validateMove_guard row col :
  (row <? 0) || (row >? 2) || (col <? 0) || (col >? 2)
  = negb (isValid row col).
Proof.
  unfold isValid.
  destruct (Z.ltb_spec row 0), (Z.gtb_spec row 2), (Z.ltb_spec col 0),
    (Z.gtb_spec col 2), (Z.geb_spec row 0), (Z.leb_spec row 2),
    (Z.geb_spec col 0), (Z.leb_spec col 2); simpl; try reflexivity; lia.
Qed.

Lemma isEmpty_validateMove st row col :
  isEmpty st row col
  = validateMove (contents (heap st) (cells (this st))) row col.
Proof.
  unfold isEmpty, validateMove. rewrite isValid_validateMove_guard.
  destruct (isValid row col) eqn:Hv; simpl; [|reflexivity].
  apply isValid_spec in Hv. unfold toIndex.
  rewrite arrGetZ_nonneg by lia. reflexivity.
Qed.

Lemma placeMove_fst st row col player :
  fst (placeMove st row col player)
  = validateMove (contents (heap st) (cells (this st))) row col
    && (strictEq player X || strictEq player O).
Proof.
  rewrite <- isEmpty_validateMove. unfold placeMove, isEmpty.
  destruct (isValid row col); simpl; [|reflexivity].
  destruct (strictEq _ JNull); simpl; [|reflexivity].
  destruct (strictEq player X), (strictEq player O); reflexivity.
Qed.

Lemma validateMove_toCoords board index :
  validateMove board (fst (toCoords index)) (snd (toCoords index))
  = validateMoveByIndex board index.
Proof.
  unfold validateMove, validateMoveByIndex.
  rewrite isValid_validateMove_guard.
  destruct (Z.ltb_spec index 0) as [Hlo|Hlo]; cbn [orb].
  { rewrite toCoords_out_of_range by lia. reflexivity. }
  destruct (Z.gtb_spec index 8) as [Hhi|Hhi]; cbn [orb].
  { rewrite toCoords_out_of_range by lia. reflexivity. }
  destruct (toCoords_in_range index ltac:(lia)) as [Hv Hidx].
  rewrite Hv. cbn [negb]. unfold toIndex in Hidx. now rewrite Hidx.
Qed.

Lemma placeMoveByIndex_fst st index player :
  fst (placeMoveByIndex st index player)
  = validateMoveByIndex (contents (heap st) (cells (this st))) index
    && (strictEq player X || strictEq player O).
Proof.
  unfold placeMoveByIndex. rewrite placeMove_fst.
  now rewrite validateMove_toCoords.
Qed.

(** X4. The board accepts a placement exactly when the rules call the
    move legal on the board's slots and the token is 'X' or 'O', by
    coordinates and by index alike; [isEmpty] is the rules' legality
    test. *)
Theorem placeMove_agrees_with_rules (st : state) (row col index : Z)
    (player : jsval) :
  fst (placeMove st row col player)
  = validateMove (contents (heap st) (cells (this st))) row col
    && (strictEq player X || strictEq player O)
  /\ fst (placeMoveByIndex st index player)
     = validateMoveByIndex (contents (heap st) (cells (this st))) index
       && (strictEq player X || strictEq player O)
  /\ isEmpty st row col
     = validateMove (contents (heap st) (cells (this st))) row col.
Proof.
  split; [apply placeMove_fst|]. split; [|apply isEmpty_validateMove].
  apply placeMoveByIndex_fst.
Qed.

Lemma getCellByIndex_out_of_range st index :
  index < 0 \/ index > 8 -> getCellByIndex st index = JUndefined.
Proof.
  intros H. unfold getCellByIndex.
  destruct (Z.ltb_spec index 0); [reflexivity|].
  destruct (Z.gtb_spec index 8); [reflexivity | lia].
Qed.

Lemma getCell_toCoords_out_of_range st index :
  index < 0 \/ index > 8 ->
  getCell st (fst (toCoords index)) (snd (toCoords index)) = JUndefined.
Proof.
  intros H. unfold getCell.
  now rewrite toCoords_out_of_range.
Qed.

(** X5. Reading by index is reading by the coordinates of the index,
    for every integer; outside 0..8 both reads give [undefined]. *)
Theorem getCellByIndex_toCoords (st : state) (index : Z) :
  getCellByIndex st index
  = getCell st (fst (toCoords index)) (snd (toCoords index))
  /\ (index < 0 \/ index > 8 ->
      getCellByIndex st index = JUndefined
      /\ getCell st (fst (toCoords index)) (snd (toCoords index))
         = JUndefined).
Proof.
  split.
  - destruct (Z.ltb_spec index 0) as [Hlo|Hlo].
    { rewrite getCellByIndex_out_of_range,
        getCell_toCoords_out_of_range by lia. reflexivity. }
    destruct (Z.ltb_spec 8 index) as [Hhi|Hhi].
    { rewrite getCellByIndex_out_of_range,
        getCell_toCoords_out_of_range by lia. reflexivity. }
    unfold getCellByIndex, getCell.
    destruct (Z.ltb_spec index 0); [lia|].
    destruct (Z.gtb_spec index 8); [lia|]. cbn [orb].
    destruct (toCoords_in_range index ltac:(lia)) as [Hv Hidx].
    rewrite Hv. cbn [negb]. now rewrite Hidx.
  - intros H. split.
    + now apply getCellByIndex_out_of_range.
    + now apply getCell_toCoords_out_of_range.
Qed.

Lemma placeMove_true_inv st row col player st' :
  placeMove st row col player = (true, st') ->
  isValid row col = true
  /\ arrGetZ (contents (heap st) (cells (this st))) (toIndex row col)
     = JNull
  /\ (player = X \/ player = O).
Proof.
  unfold placeMove, isEmpty.
  destruct (isValid row col); simpl; [|discriminate].
  destruct (strictEq _ JNull) eqn:He; simpl; [|discriminate].
  apply strictEq_eq in He.
  destruct (strictEq player X) eqn:EX; simpl.
  - apply strictEq_eq in EX. auto.
  - destruct (strictEq player O) eqn:EO; simpl; [|discriminate].
    apply strictEq_eq in EO. auto.
Qed.

Lemma toIndex_injective row col r c :
  isValid row col = true -> isValid r c = true ->
  toIndex r c = toIndex row col -> (r, c) = (row, col).
Proof.
  rewrite !isValid_spec. unfold toIndex. intros H1 H2 H.
  f_equal; lia.
Qed.

(** X6. After an accepted placement the target reads as the token,
    every other position reads as before, turn and status are as
    before, and any further placement on the target is rejected: a
    filled slot is never overwritten. *)
Theorem placeMove_then_read (st st' : state) (row col : Z)
    (player : jsval) :
  placeMove st row col player = (true, st') ->
  getCell st' row col = player
  /\ (forall r c, (r, c) <> (row, col) ->
        getCell st' r c = getCell st r c)
  /\ (forall q, placeMove st' row col q = (false, st'))
  /\ getCurrentPlayer st' = getCurrentPlayer st
  /\ getStatus st' = getStatus st.
Proof.
  intros Hpl.
  destruct (placeMove_true_inv _ _ _ _ _ Hpl) as (Hv & He & Hp).
  destruct (placeMove_accepts st row col player Hv He Hp)
    as (a & Ha & Hi & Hacc).
  rewrite Hacc in Hpl. injection Hpl as <-.
  assert (Hidx : 0 <= toIndex row col)
    by (apply isValid_spec in Hv; unfold toIndex; lia).
  assert (Hlt : (Z.to_nat (toIndex row col) < length a)%nat)
    by (now apply lookup_lt_Some in Hi).
  assert (Hnew : contents
            (<[cells (this st) := <[Z.to_nat (toIndex row col) := player]> a]>
               (heap st)) (cells (this st))
          = <[Z.to_nat (toIndex row col) := player]> a)
    by (unfold contents; now rewrite lookup_insert_eq).
  assert (Hread : getCell
            {| heap := <[cells (this st) :=
                           <[Z.to_nat (toIndex row col) := player]> a]>
                         (heap st);
               this := this st |} row col = player).
  { unfold getCell. rewrite Hv. cbn [negb heap this]. rewrite Hnew.
    rewrite arrGetZ_nonneg by assumption.
    unfold arrGet. now rewrite list_lookup_insert_eq. }
  split; [assumption|]. split; [|split; [|split; reflexivity]].
  - intros r c Hne. unfold getCell.
    destruct (isValid r c) eqn:Hv'; simpl; [|reflexivity].
    rewrite Hnew, (contents_Some _ _ _ Ha).
    assert (0 <= toIndex r c)
      by (apply isValid_spec in Hv'; unfold toIndex; lia).
    rewrite !arrGetZ_nonneg by assumption.
    unfold arrGet. rewrite list_lookup_insert_ne; [reflexivity|].
    intros Heq. apply Hne. apply toIndex_injective; auto. lia.
  - intros q. apply placeMove_rejects. right. left.
    unfold getCell in Hread. rewrite Hv in Hread. simpl in Hread.
    simpl. rewrite Hread. destruct Hp as [-> | ->]; discriminate.
Qed.

Lemma placeMove_then_read_witness :
  placeMove (initialize ∅) 1 1 X
  = (true, snd (placeMove (initialize ∅) 1 1 X))
  /\ getCell (snd (placeMove (initialize ∅) 1 1 X)) 1 1 = X.
Proof.
  assert (H : placeMove (initialize ∅) 1 1 X
              = (true, snd (placeMove (initialize ∅) 1 1 X)))
    by reflexivity.
  split; [exact H|].
  exact (proj1 (placeMove_then_read _ _ 1 1 X H)).
Defined.

End MoreBoard.

Section BoardInvariant.

Import Rules BoardState Play Invariants.

Lemma placeMove_false_same st row col player st' :
  placeMove st row col player = (false, st') -> st' = st.
Proof.
  unfold placeMove.
  destruct (negb (isValid row col)); [now intros [= <-]|].
  destruct (negb (isEmpty st row col)); [now intros [= <-]|].
  destruct (negb (strictEq player X) && negb (strictEq player O));
    [now intros [= <-] | discriminate].
Qed.

Lemma placeMove_wellFormed st row col player :
  boardWellFormed st -> boardWellFormed (snd (placeMove st row col player)).
Proof.
  intros Hwf.
  destruct (placeMove st row col player) as [[|] st'] eqn:Hpl; simpl.
  - destruct (placeMove_true_inv _ _ _ _ _ Hpl) as (Hv & He & Hp).
    destruct (placeMove_accepts st row col player Hv He Hp)
      as (a & Ha & Hi & Hacc).
    rewrite Hacc in Hpl. injection Hpl as <-.
    destruct Hwf as (a' & Ha' & Hlen & Hall).
    assert (a' = a) by congruence. subst a'.
    exists (<[Z.to_nat (toIndex row col) := player]> a). simpl.
    split; [apply lookup_insert_eq|].
    split; [now rewrite length_insert|].
    apply Forall_insert; [assumption|].
    unfold marker. tauto.
  - apply placeMove_false_same in Hpl. now subst.
Qed.

Lemma getBoard_wellFormed st :
  boardWellFormed st -> boardWellFormed (snd (getBoard st)).
Proof.
  intros (a & Ha & Hlen & Hall).
  rewrite (getBoard_eq st a Ha). simpl.
  exists a. split; [|auto]. simpl.
  rewrite lookup_insert_ne; [assumption|].
  now apply (alloc_fresh _ a).
Qed.

Lemma initialize_wellFormed h : boardWellFormed (initialize h).
Proof.
  exists (replicate 9 JNull).
  split; [apply initialize_cells_live|].
  split; [reflexivity|]. repeat constructor.
Qed.

(** X7. Every operation of the board keeps its array alive, nine slots
    long, with each slot empty or a marker: construction and reset
    establish this; placement (accepted or rejected), the turn switch,
    the status setter, [getBoard()] and any writes a caller makes to
    the array [getBoard()] returned preserve it. *)
Theorem boardWellFormed_preserved :
  (forall h, boardWellFormed (initialize h))
  /\ (forall st, boardWellFormed (reset st))
  /\ (forall st, boardWellFormed st ->
        (forall row col player,
           boardWellFormed (snd (placeMove st row col player)))
        /\ (forall index player,
              boardWellFormed (snd (placeMoveByIndex st index player)))
        /\ boardWellFormed (switchTurn st)
        /\ (forall s, boardWellFormed (setStatus st s))
        /\ boardWellFormed (snd (getBoard st))
        /\ (forall ws,
              boardWellFormed
                (callerWrites (snd (getBoard st)) (fst (getBoard st)) ws))).
Proof.
  split; [exact initialize_wellFormed|].
  split; [intros st; apply initialize_wellFormed|].
  intros st Hwf.
  split; [intros; now apply placeMove_wellFormed|].
  split; [intros; now apply placeMove_wellFormed|].
  split; [exact Hwf|]. split; [intros s; exact Hwf|].
  split; [now apply getBoard_wellFormed|].
  intros ws.
  pose proof (getBoard_wellFormed st Hwf) as (a & Ha & Hlen & Hall).
  destruct Hwf as (a0 & Ha0 & _).
  assert (Hne : fst (getBoard st) <> cells (this (snd (getBoard st)))).
  { rewrite (getBoard_eq st a0 Ha0). simpl. now apply (alloc_fresh _ a0). }
  destruct (callerWrites_other _ _ ws Hne) as [Hthis Hheap].
  exists a. rewrite Hthis, Hheap. auto.
Qed.

(** X8. [switchTurn] leaves 'O' to move after 'X' and 'X' after
    anything else, touches neither the slots nor the status, and
    switching twice from a turn of 'X' or 'O' restores the state. *)
Theorem switchTurn_alternates (st : state) :
  (getCurrentPlayer st = X -> getCurrentPlayer (switchTurn st) = O)
  /\ (getCurrentPlayer st <> X -> getCurrentPlayer (switchTurn st) = X)
  /\ heap (switchTurn st) = heap st
  /\ cells (this (switchTurn st)) = cells (this st)
  /\ getStatus (switchTurn st) = getStatus st
  /\ (getCurrentPlayer st = X \/ getCurrentPlayer st = O ->
      switchTurn (switchTurn st) = st).
Proof.
  destruct st as [h [c p s]]. unfold getCurrentPlayer, switchTurn. simpl.
  split; [intros ->; reflexivity|].
  split; [intros H; apply strictEq_neq in H; now rewrite H|].
  repeat (split; [reflexivity|]).
  intros [-> | ->]; reflexivity.
Qed.

Lemma getAvailableMoves_insert a (i : nat) (v : jsval) :
  (i < length a)%nat -> v <> JNull ->
  AI.getAvailableMoves (<[i := v]> a)
  = filter (fun j => j <> i) (AI.getAvailableMoves a).
Proof.
  intros Hlt Hv. rewrite <- (getAvailableMoves_arrSet a i v Hv).
  unfold arrSet. apply Nat.ltb_lt in Hlt. now rewrite Hlt.
Qed.

Lemma board_getAvailableMoves st :
  BoardState.getAvailableMoves st
  = AI.getAvailableMoves (contents (heap st) (cells (this st))).
Proof. reflexivity. Qed.

(** X9. The board's list of available moves holds exactly the indices
    at which a placement of a marker is accepted; an accepted placement
    at [i] removes [i] from it and changes nothing else; and on a well
    formed board [isFull] answers [true] exactly when the list is
    empty. *)
Theorem board_available_moves (st : state) :
  (forall i : nat,
     i ∈ BoardState.getAvailableMoves st
     <-> fst (placeMoveByIndex st (Z.of_nat i) X) = true)
  /\ (forall (i : nat) player st',
        placeMoveByIndex st (Z.of_nat i) player = (true, st') ->
        BoardState.getAvailableMoves st'
        = filter (fun j => j <> i) (BoardState.getAvailableMoves st))
  /\ (boardWellFormed st ->
      (isFull st = true <-> BoardState.getAvailableMoves st = [])).
Proof.
  rewrite board_getAvailableMoves.
  split; [|split].
  - intros i. rewrite <- legal_available. unfold legal.
    rewrite placeMoveByIndex_fst. simpl. now rewrite andb_true_r.
  - intros i player st' Hpl. rewrite board_getAvailableMoves.
    unfold placeMoveByIndex in Hpl.
    destruct (placeMove_true_inv _ _ _ _ _ Hpl) as (Hv & He & Hp).
    destruct (placeMove_accepts st _ _ player Hv He Hp)
      as (a & Ha & Hi & Hacc).
    assert (Hidx : Z.to_nat (toIndex (fst (toCoords (Z.of_nat i)))
                                      (snd (toCoords (Z.of_nat i)))) = i).
    { destruct (Z.ltb_spec (Z.of_nat i) 9) as [Hlt|Hge].
      - destruct (toCoords_in_range (Z.of_nat i)) as [_ ->]; lia.
      - rewrite toCoords_out_of_range in Hv by lia. discriminate. }
    rewrite Hidx in Hacc, Hi.
    rewrite Hacc in Hpl. injection Hpl as <-. cbn [heap this cells].
    rewrite (contents_Some _ _ (<[i := player]> a))
      by apply lookup_insert_eq.
    rewrite (contents_Some _ _ _ Ha).
    rewrite getAvailableMoves_insert; [reflexivity | | ].
    + now apply lookup_lt_Some in Hi.
    + destruct Hp as [-> | ->]; discriminate.
  - intros (a & Ha & Hlen & Hall). unfold isFull.
    rewrite (contents_Some _ _ _ Ha), everyNonNull_full.
    split.
    + intros Hfull. apply elem_of_nil_inv. intros i Hi.
      apply getAvailableMoves_elem in Hi as [_ Hi].
      unfold arrGet in Hi.
      destruct (a !! i) as [cell|] eqn:E; simpl in Hi; [|discriminate].
      subst cell. apply (Hfull JNull); [|reflexivity].
      apply list_elem_of_In, list_elem_of_lookup. eauto.
    + intros Hnil cell Hin ->.
      apply list_elem_of_In, list_elem_of_lookup in Hin as [i Hi].
      assert (i ∈ AI.getAvailableMoves a) as Hmem.
      { apply getAvailableMoves_elem. split.
        - apply lookup_lt_Some in Hi. lia.
        - unfold arrGet. now rewrite Hi. }
      rewrite Hnil in Hmem. inversion Hmem.
Qed.

(** X22. Outside the grid [isEmpty] and [isOccupied] both answer
    [false] and [getCell] answers [undefined]; inside it exactly one of
    the two holds, [isEmpty] exactly when [getCell] reads [null], and
    on a well formed board [isOccupied] exactly when [getCell] reads
    'X' or 'O'. *)
Theorem isEmpty_isOccupied_getCell (st : state) (row col : Z) :
  (isValid row col = false ->
     isEmpty st row col = false /\ isOccupied st row col = false
     /\ getCell st row col = JUndefined)
  /\ (isValid row col = true ->
      isOccupied st row col = negb (isEmpty st row col)
      /\ (isEmpty st row col = true <-> getCell st row col = JNull))
  /\ (boardWellFormed st -> isValid row col = true ->
      (isOccupied st row col = true
       <-> getCell st row col = X \/ getCell st row col = O)).
Proof.
  unfold isEmpty, isOccupied, getCell.
  split; [intros ->; auto|]. split.
  - intros ->. cbn [negb]. split; [reflexivity | apply strictEq_eq].
  - intros (a & Ha & Hlen & Hall) Hv. rewrite Hv. cbn [negb].
    rewrite (contents_Some _ _ _ Ha).
    apply isValid_spec in Hv.
    rewrite arrGetZ_nonneg by (unfold toIndex; lia).
    assert (Hlt : (Z.to_nat (toIndex row col) < length a)%nat)
      by (unfold toIndex; lia).
    destruct (lookup_lt_is_Some_2 a _ Hlt) as [cell Hcell].
    unfold arrGet. rewrite Hcell. cbn [default].
    assert (Hm : marker cell).
    { rewrite Forall_forall in Hall. apply Hall.
      apply list_elem_of_lookup. eauto. }
    destruct Hm as [-> | [-> | ->]]; cbn;
      intuition (discriminate || auto).
Qed.

End BoardInvariant.

(** ** The search: windows, bounds, and the move that is chosen *)

Section MoreSearch.

Import Rules AI Play.

(** X10. For every window with [alpha < beta] the score [minimax]
    returns brackets the exhaustive value of the position: a score at
    or below [alpha] is an upper bound on it, a score at or above
    [beta] a lower bound, and a score strictly inside the window is the
    value itself. *)
Theorem minimax_window_bracket (board : list jsval) (depth : Z)
    (isMaximizing : bool) (alpha beta : num) (extra : nat) :
  Num.leb beta alpha = false ->
  exists score,
    minimax (minimaxFuel board + extra) board depth isMaximizing alpha beta
    = Some (score, board)
    /\ (Num.leb score alpha = true ->
        Num.leb (plainMinimax board depth isMaximizing) score = true)
    /\ (Num.leb beta score = true ->
        Num.leb score (plainMinimax board depth isMaximizing) = true)
    /\ (Num.leb score alpha = false -> Num.leb beta score = false ->
        score = plainMinimax board depth isMaximizing).
Proof.
  intros Hab.
  destruct (minimax_bracket (minimaxFuel board + extra) board depth
              isMaximizing alpha beta) as (score & Hs & Hb);
    [unfold minimaxFuel; lia | assumption |].
  exists score. split; [assumption|].
  unfold plainMinimax.
  rewrite (plain_fuel (minimaxFuel board) (minimaxFuel board + extra))
    by (unfold minimaxFuel; lia).
  exact Hb.
Qed.

Lemma minimax_window_bracket_witness :
  Num.leb (Fin 1) (Fin (-1)) = false
  /\ exists score,
       minimax (minimaxFuel cornerBoard + 0) cornerBoard 0 true
               (Fin (-1)) (Fin 1) = Some (score, cornerBoard).
Proof.
  assert (H : Num.leb (Fin 1) (Fin (-1)) = false) by reflexivity.
  split; [exact H|].
  destruct (minimax_window_bracket cornerBoard 0 true (Fin (-1)) (Fin 1)
              0%nat H) as (score & Hs & _).
  exists score. exact Hs.
Defined.

Lemma minimax_full_window board depth isMaximizing :
  minimax (minimaxFuel board) board depth isMaximizing NegInf PosInf
  = Some (plainMinimax board depth isMaximizing, board).
Proof.
  destruct (minimax_bracket (minimaxFuel board) board depth
              isMaximizing NegInf PosInf) as (score & Hs & Hb);
    [unfold minimaxFuel; lia | reflexivity |].
  rewrite Hs. apply bracket_full in Hb. now subst score.
Qed.

Lemma everyNonNull_false a :
  everyNonNull a = false -> exists i, a !! i = Some JNull.
Proof.
  unfold everyNonNull.
  induction a as [|cell a IH]; simpl; [discriminate|].
  destruct (strictEq cell JNull) eqn:E; simpl.
  - intros _. apply strictEq_eq in E. subst. now exists 0%nat.
  - intros H. destruct (IH H) as [i Hi]. now exists (S i).
Qed.

(** A position that is not terminal has an empty slot among the first
    nine, when the array has no more than nine slots. *)
Lemma nonterminal_has_move board :
  (length board <= 9)%nat ->
  truthy (checkWin board O) = false ->
  truthy (checkWin board X) = false ->
  checkDraw board = false ->
  getAvailableMoves board <> [].
Proof.
  intros Hlen HO HX HD. unfold checkDraw in HD. rewrite HO, HX in HD.
  simpl in HD. apply everyNonNull_false in HD as [i Hi].
  assert (i ∈ getAvailableMoves board) as Hmem.
  { apply getAvailableMoves_elem. split.
    - apply lookup_lt_Some in Hi. lia.
    - unfold arrGet. now rewrite Hi. }
  intros Hnil. rewrite Hnil in Hmem. inversion Hmem.
Qed.

Lemma arrSet_length_available board (m : nat) (v : jsval) :
  m ∈ getAvailableMoves board ->
  length (arrSet board m v) = length board.
Proof.
  intros Hm. apply getAvailableMoves_elem in Hm as [_ Hm].
  apply arrSet_length_lt, arrGet_lt. congruence.
Qed.

Lemma fold_max_range (val : nat -> num) (lo hi : Z) moves :
  (forall m, m ∈ moves -> exists z, val m = Fin z /\ lo <= z <= hi) ->
  forall acc,
    (acc = NegInf /\ moves <> []) \/ (exists z, acc = Fin z /\ lo <= z <= hi) ->
    exists z, fold_left (fun b m => Num.max b (val m)) moves acc = Fin z
              /\ lo <= z <= hi.
Proof.
  induction moves as [|m rest IH]; intros Hval acc Hacc; simpl.
  - destruct Hacc as [[_ H] | H]; [contradiction | assumption].
  - apply IH; [intros k Hk; apply Hval; now right|].
    right. destruct (Hval m) as (z & Hz & Hr); [left|]. rewrite Hz.
    destruct Hacc as [[-> _] | (a & -> & Ha)]; simpl.
    + exists z. split; [reflexivity | lia].
    + unfold Num.max, Num.min. simpl.
      destruct (a <=? z); eexists; (split; [reflexivity | lia]).
Qed.

Lemma fold_min_range (val : nat -> num) (lo hi : Z) moves :
  (forall m, m ∈ moves -> exists z, val m = Fin z /\ lo <= z <= hi) ->
  forall acc,
    (acc = PosInf /\ moves <> []) \/ (exists z, acc = Fin z /\ lo <= z <= hi) ->
    exists z, fold_left (fun b m => Num.min b (val m)) moves acc = Fin z
              /\ lo <= z <= hi.
Proof.
  induction moves as [|m rest IH]; intros Hval acc Hacc; simpl.
  - destruct Hacc as [[_ H] | H]; [contradiction | assumption].
  - apply IH; [intros k Hk; apply Hval; now right|].
    right. destruct (Hval m) as (z & Hz & Hr); [left|]. rewrite Hz.
    destruct Hacc as [[-> _] | (a & -> & Ha)]; simpl.
    + exists z. split; [reflexivity | lia].
    + unfold Num.max, Num.min. simpl.
      destruct (a <=? z); eexists; (split; [reflexivity | lia]).
Qed.

(** On an array of at most nine slots, searched from a depth that
    leaves room for every empty slot, the exhaustive value is a finite
    score between [depth - 10] and [10 - depth]. *)
Lemma plain_range fuel board depth isMaximizing :
  (length board <= 9)%nat ->
  (length (getAvailableMoves board) < fuel)%nat ->
  0 <= depth ->
  depth + Z.of_nat (length (getAvailableMoves board)) <= 9 ->
  exists z, plain fuel board depth isMaximizing = Fin z
            /\ depth - 10 <= z <= 10 - depth.
Proof.
  revert board depth isMaximizing.
  induction fuel as [|fuel IH];
    intros board depth isMax Hlen Hfuel Hd Hsum; [lia|].
  simpl.
  destruct (truthy (checkWin board O)) eqn:HO;
    [eexists; split; [reflexivity | lia]|].
  destruct (truthy (checkWin board X)) eqn:HX;
    [eexists; split; [reflexivity | lia]|].
  destruct (checkDraw board) eqn:HD;
    [eexists; split; [reflexivity | lia]|].
  pose proof (nonterminal_has_move board Hlen HO HX HD) as Hne.
  destruct isMax.
  - destruct (fold_max_range
                (fun m => plain fuel (arrSet board m O) (depth + 1) false)
                (depth + 1 - 10) (10 - (depth + 1))
                (getAvailableMoves board)) with (acc := NegInf)
      as (z & Hz & Hr); [| now left | exists z; split; [assumption | lia]].
    intros m Hm.
    pose proof (getAvailableMoves_fill board m O Hm O_not_null).
    apply IH; try lia.
    now rewrite arrSet_length_available.
  - destruct (fold_min_range
                (fun m => plain fuel (arrSet board m X) (depth + 1) true)
                (depth + 1 - 10) (10 - (depth + 1))
                (getAvailableMoves board)) with (acc := PosInf)
      as (z & Hz & Hr); [| now left | exists z; split; [assumption | lia]].
    intros m Hm.
    pose proof (getAvailableMoves_fill board m X Hm X_not_null).
    apply IH; try lia.
    now rewrite arrSet_length_available.
Qed.

(** X11. Called at depth 0 on an array of at most nine slots with the
    full window, [minimax] returns a finite score between -10 and 10;
    the score 10 means 'O' already holds a line and the score -10 that
    'X' does (and 'O' does not). *)
Theorem minimax_score_range (board : list jsval) (isMaximizing : bool) :
  (length board <= 9)%nat ->
  exists z,
    minimax (minimaxFuel board) board 0 isMaximizing NegInf PosInf
    = Some (Fin z, board)
    /\ -10 <= z <= 10
    /\ (z = 10 <-> hasLine board O)
    /\ (z = -10 <-> hasLine board X /\ ~ hasLine board O).
Proof.
  intros Hlen. rewrite minimax_full_window.
  pose proof (getAvailableMoves_length board) as Hav.
  unfold plainMinimax, minimaxFuel. simpl.
  destruct (truthy (checkWin board O)) eqn:HO.
  { apply checkWin_truthy in HO. exists 10.
    split; [reflexivity|]. intuition lia. }
  destruct (truthy (checkWin board X)) eqn:HX.
  { apply checkWin_falsy in HO. apply checkWin_truthy in HX.
    exists (-10). split; [reflexivity|]. intuition lia. }
  assert (Hmid : forall z, -9 <= z <= 9 ->
            -10 <= z <= 10
            /\ (z = 10 <-> hasLine board O)
            /\ (z = -10 <-> hasLine board X /\ ~ hasLine board O)).
  { intros z Hz.
    pose proof (proj1 (checkWin_falsy board O) HO).
    pose proof (proj1 (checkWin_falsy board X) HX).
    intuition lia. }
  destruct (checkDraw board) eqn:HD.
  { exists 0. split; [reflexivity|]. apply Hmid. lia. }
  pose proof (nonterminal_has_move board Hlen HO HX HD) as Hne.
  destruct isMaximizing.
  - destruct (fold_max_range
                (fun m => plain (length (getAvailableMoves board))
                                (arrSet board m O) (0 + 1) false)
                (-9) 9 (getAvailableMoves board)) with (acc := NegInf)
      as (z & Hz & Hr); [| now left |].
    + intros m Hm.
      pose proof (getAvailableMoves_fill board m O Hm O_not_null).
      destruct (plain_range (length (getAvailableMoves board))
                  (arrSet board m O) (0 + 1) false) as (z & Hz & Hr);
        try lia; [now rewrite arrSet_length_available|].
      exists z. split; [assumption | lia].
    + exists z. rewrite Hz. split; [reflexivity | now apply Hmid].
  - destruct (fold_min_range
                (fun m => plain (length (getAvailableMoves board))
                                (arrSet board m X) (0 + 1) true)
                (-9) 9 (getAvailableMoves board)) with (acc := PosInf)
      as (z & Hz & Hr); [| now left |].
    + intros m Hm.
      pose proof (getAvailableMoves_fill board m X Hm X_not_null).
      destruct (plain_range (length (getAvailableMoves board))
                  (arrSet board m X) (0 + 1) true) as (z & Hz & Hr);
        try lia; [now rewrite arrSet_length_available|].
      exists z. split; [assumption | lia].
    + exists z. rewrite Hz. split; [reflexivity | now apply Hmid].
Qed.

Lemma minimax_score_range_witness :
  (length cornerBoard <= 9)%nat
  /\ exists z,
       minimax (minimaxFuel cornerBoard) cornerBoard 0 true NegInf PosInf
       = Some (Fin z, cornerBoard) /\ -10 <= z <= 10.
Proof.
  assert (H : (length cornerBoard <= 9)%nat) by (vm_compute; lia).
  split; [exact H|].
  destruct (minimax_score_range cornerBoard true H) as (z & Hz & Hr & _).
  exists z. split; [exact Hz | exact Hr].
Defined.

End MoreSearch.

Section ChosenMove.

Import Rules AI Play Invariants.

(** The top-level loop keeps the first move of strictly greatest value,
    or what it started with when no move beats the starting score. *)
Lemma bestLoop_spec boardCopy moves :
  (forall m, m ∈ moves -> m ∈ getAvailableMoves boardCopy) ->
  forall bestMove bestScore,
  exists r,
    bestLoop moves boardCopy bestMove bestScore = Some r
    /\ ((r = bestMove
         /\ forall k, k ∈ moves ->
              Num.leb (moveValue boardCopy k) bestScore = true)
        \/ (exists before m after,
              moves = before ++ m :: after
              /\ r = Some m
              /\ Num.leb (moveValue boardCopy m) bestScore = false
              /\ (forall k, k ∈ before ->
                    Num.leb (moveValue boardCopy m) (moveValue boardCopy k)
                    = false)
              /\ (forall k, k ∈ after ->
                    Num.leb (moveValue boardCopy k) (moveValue boardCopy m)
                    = true))).
Proof.
  induction moves as [|m rest IH]; intros Hav bestMove bestScore;
    cbn [bestLoop].
  - exists bestMove. split; [reflexivity|]. left.
    split; [reflexivity|]. intros k Hk. inversion Hk.
  - assert (Hm : m ∈ getAvailableMoves boardCopy) by (apply Hav; left).
    rewrite minimax_full_window.
    rewrite arrSet_undo by (now apply getAvailableMoves_elem in Hm).
    fold (moveValue boardCopy m).
    assert (Hrest : forall k, k ∈ rest -> k ∈ getAvailableMoves boardCopy)
      by (intros k Hk; apply Hav; now right).
    unfold Num.gtb.
    destruct (Num.leb (moveValue boardCopy m) bestScore) eqn:Hcmp;
      cbn [negb].
    + destruct (IH Hrest bestMove bestScore) as (r & Hr & Hcase).
      exists r. split; [assumption|].
      destruct Hcase as [[-> Hle] | (before & m' & after & -> & -> & Hgt
                                      & Hbefore & Hafter)].
      * left. split; [reflexivity|].
        intros k Hk. inversion Hk; subst; auto.
      * right. exists (m :: before), m', after.
        split; [reflexivity|]. split; [reflexivity|].
        split; [assumption|]. split; [|assumption].
        intros k Hk. inversion Hk; subst; [|now apply Hbefore].
        revert Hcmp Hgt. clear. intros. num_order.
    + destruct (IH Hrest (Some m) (moveValue boardCopy m))
        as (r & Hr & Hcase).
      exists r. split; [assumption|]. right.
      destruct Hcase as [[-> Hle] | (before & m' & after & -> & -> & Hgt
                                      & Hbefore & Hafter)].
      * exists [], m, rest.
        split; [reflexivity|]. split; [reflexivity|].
        split; [assumption|]. split; [|assumption].
        intros k Hk. inversion Hk.
      * exists (m :: before), m', after.
        split; [reflexivity|]. split; [reflexivity|].
        split; [revert Hcmp Hgt; clear; intros; num_order|].
        split; [|assumption].
        intros k Hk. inversion Hk; subst; [assumption | now apply Hbefore].
Qed.

Lemma moveValue_finite board m :
  (length board <= 9)%nat -> m ∈ getAvailableMoves board ->
  exists z, moveValue board m = Fin z /\ -10 <= z <= 10
            /\ (z = 10 -> hasLine (arrSet board m O) O).
Proof.
  intros Hlen Hm.
  pose proof (getAvailableMoves_length board) as Hav.
  pose proof (getAvailableMoves_fill board m O Hm O_not_null) as Hfill.
  assert (Hlen' : (length (arrSet board m O) <= 9)%nat)
    by (now rewrite arrSet_length_available).
  unfold moveValue, plainMinimax, minimaxFuel. simpl.
  destruct (truthy (checkWin (arrSet board m O) O)) eqn:HO.
  { apply checkWin_truthy in HO. exists 10. repeat split; auto; lia. }
  destruct (truthy (checkWin (arrSet board m O) X)) eqn:HX.
  { exists (-10). repeat split; try lia. }
  destruct (checkDraw (arrSet board m O)) eqn:HD.
  { exists 0. repeat split; try lia. }
  pose proof (nonterminal_has_move _ Hlen' HO HX HD) as Hne.
  destruct (fold_min_range
              (fun k => plain (length (getAvailableMoves (arrSet board m O)))
                              (arrSet (arrSet board m O) k X) (0 + 1) true)
              (-9) 9 (getAvailableMoves (arrSet board m O)))
    with (acc := PosInf) as (z & Hz & Hr); [| now left |].
  - intros k Hk.
    pose proof (getAvailableMoves_fill _ k X Hk X_not_null).
    destruct (plain_range (length (getAvailableMoves (arrSet board m O)))
                (arrSet (arrSet board m O) k X) (0 + 1) true)
      as (z & Hz & Hr); try lia; [now rewrite arrSet_length_available|].
    exists z. split; [assumption | lia].
  - exists z. rewrite Hz. repeat split; try lia.
Qed.

Lemma getMinimaxMove_chooses board :
  (length board <= 9)%nat ->
  getAvailableMoves board <> [] ->
  exists before m after,
    getAvailableMoves board = before ++ m :: after
    /\ getMinimaxMove board = Some (Some m)
    /\ (forall k, k ∈ before ->
          Num.leb (moveValue board m) (moveValue board k) = false)
    /\ (forall k, k ∈ after ->
          Num.leb (moveValue board k) (moveValue board m) = true).
Proof.
  intros Hlen Hne. unfold getMinimaxMove.
  destruct (getAvailableMoves board) as [|m0 rest] eqn:Hav;
    [contradiction|].
  cbn [length Nat.eqb]. rewrite <- Hav.
  destruct (bestLoop_spec board (getAvailableMoves board)
              ltac:(auto) None NegInf) as (r & Hr & Hcase).
  destruct Hcase as [[-> Hle] | (before & m & after & Heq & -> & Hgt
                                  & Hbefore & Hafter)].
  - exfalso.
    assert (Hm0 : m0 ∈ getAvailableMoves board) by (rewrite Hav; left).
    destruct (moveValue_finite board m0 Hlen Hm0) as (z & Hz & _).
    specialize (Hle m0 Hm0). rewrite Hz in Hle. discriminate.
  - exists before, m, after. auto.
Qed.

(** X12. On an array of at most nine slots [getMinimaxMove] always
    produces an answer.  The answer is [null] exactly when no slot is
    empty; when some slot is empty it is a legal move whose value is
    the greatest among the empty slots, the first such in ascending
    order: every earlier empty slot has a strictly smaller value and
    every later one no greater value. *)
Theorem getMinimaxMove_first_best (board : list jsval) :
  (length board <= 9)%nat ->
  (exists answer, getMinimaxMove board = Some answer)
  /\ (getMinimaxMove board = Some None <-> getAvailableMoves board = [])
  /\ (getAvailableMoves board <> [] ->
      exists before m after,
        getMinimaxMove board = Some (Some m)
        /\ validateMoveByIndex board (Z.of_nat m) = true
        /\ getAvailableMoves board = before ++ m :: after
        /\ (forall k, k ∈ before ->
              Num.leb (moveValue board m) (moveValue board k) = false)
        /\ (forall k, k ∈ after ->
              Num.leb (moveValue board k) (moveValue board m) = true)).
Proof.
  intros Hlen.
  destruct (getAvailableMoves board) as [|m0 rest] eqn:Hav.
  - unfold getMinimaxMove. rewrite Hav. simpl.
    split; [now exists None|]. split; [tauto | contradiction].
  - destruct (getMinimaxMove_chooses board Hlen)
      as (before & m & after & Heq & Hres & Hbefore & Hafter);
      [rewrite Hav; discriminate|].
    rewrite Hres. split; [now exists (Some m)|].
    split; [split; discriminate|].
    intros _. exists before, m, after.
    split; [reflexivity|]. split.
    + apply legal_available. rewrite Heq.
      apply elem_of_app. right. left.
    + rewrite <- Hav. auto.
Qed.

Lemma getMinimaxMove_first_best_witness :
  (length cornerBoard <= 9)%nat
  /\ getAvailableMoves cornerBoard <> []
  /\ exists before m after,
       getMinimaxMove cornerBoard = Some (Some m)
       /\ validateMoveByIndex cornerBoard (Z.of_nat m) = true
       /\ getAvailableMoves cornerBoard = before ++ m :: after
       /\ (forall k, k ∈ before ->
             Num.leb (moveValue cornerBoard m) (moveValue cornerBoard k)
             = false)
       /\ (forall k, k ∈ after ->
             Num.leb (moveValue cornerBoard k) (moveValue cornerBoard m)
             = true).
Proof.
  assert (H : (length cornerBoard <= 9)%nat) by (vm_compute; lia).
  assert (Hne : getAvailableMoves cornerBoard <> [])
    by (vm_compute; discriminate).
  split; [exact H|]. split; [exact Hne|].
  exact (proj2 (proj2 (getMinimaxMove_first_best cornerBoard H)) Hne).
Defined.

(** X13. When some empty slot completes a line of 'O' on an array of
    at most nine slots, [getMinimaxMove] answers with a move that
    completes a line of 'O': the immediate win is taken. *)
Theorem getMinimaxMove_takes_win (board : list jsval) (w : nat) :
  (length board <= 9)%nat ->
  w ∈ getAvailableMoves board ->
  hasLine (arrSet board w O) O ->
  exists m, getMinimaxMove board = Some (Some m)
            /\ hasLine (arrSet board m O) O.
Proof.
  intros Hlen Hw Hline.
  destruct (getMinimaxMove_chooses board Hlen)
    as (before & m & after & Heq & Hres & Hbefore & Hafter).
  { intros Hnil. rewrite Hnil in Hw. inversion Hw. }
  exists m. split; [assumption|].
  assert (Hm : m ∈ getAvailableMoves board)
    by (rewrite Heq; apply elem_of_app; right; left).
  destruct (moveValue_finite board m Hlen Hm) as (z & Hz & Hr & Hten).
  apply Hten.
  assert (Hwv : moveValue board w = Fin 10).
  { unfold moveValue, plainMinimax, minimaxFuel. simpl.
    apply checkWin_truthy in Hline. now rewrite Hline. }
  assert (Hge : Num.leb (moveValue board w) (moveValue board m) = true).
  { rewrite Heq in Hw. apply elem_of_app in Hw as [Hw | Hw].
    - specialize (Hbefore w Hw). revert Hbefore. clear. intros. num_order.
    - inversion Hw; subst; [clear; num_order | now apply Hafter]. }
  rewrite Hwv, Hz in Hge. simpl in Hge. apply Z.leb_le in Hge. lia.
Qed.

Lemma getMinimaxMove_takes_win_witness :
  (length [O; O; JNull; X; X; JNull; JNull; JNull; JNull] <= 9)%nat
  /\ 2%nat ∈ getAvailableMoves
               [O; O; JNull; X; X; JNull; JNull; JNull; JNull]
  /\ exists m,
       getMinimaxMove [O; O; JNull; X; X; JNull; JNull; JNull; JNull]
       = Some (Some m).
Proof.
  assert (H1 : (length [O; O; JNull; X; X; JNull; JNull; JNull; JNull]
                <= 9)%nat) by (simpl; lia).
  assert (H2 : 2%nat ∈ getAvailableMoves
                 [O; O; JNull; X; X; JNull; JNull; JNull; JNull])
    by (apply getAvailableMoves_elem; split; [lia | reflexivity]).
  assert (H3 : hasLine
                 (arrSet [O; O; JNull; X; X; JNull; JNull; JNull; JNull]
                         2 O) O)
    by (exists 0%nat, 1%nat, 2%nat; simpl; auto).
  split; [exact H1|]. split; [exact H2|].
  destruct (getMinimaxMove_takes_win _ 2%nat H1 H2 H3) as (m & Hm & _).
  exists m. exact Hm.
Defined.

End ChosenMove.

Section RandomMove.

Import Rules AI Play.

Lemma random_index_range (r : Q) (n : nat) :
  (0 <= r)%Q -> (r < 1)%Q -> (0 < n)%nat ->
  (Z.to_nat (Qfloor (r * inject_Z (Z.of_nat n))) < n)%nat.
Proof.
  intros H0 H1 Hn.
  assert (Hpos : (0 < inject_Z (Z.of_nat n))%Q).
  { rewrite <- (Zlt_Qlt 0). lia. }
  assert (Hlo : 0 <= Qfloor (r * inject_Z (Z.of_nat n))).
  { change 0 with (Qfloor (inject_Z 0)) at 1. apply Qfloor_resp_le.
    apply Qmult_le_0_compat; [assumption | now apply Qlt_le_weak]. }
  assert (Hhi : Qfloor (r * inject_Z (Z.of_nat n)) < Z.of_nat n).
  { rewrite Zlt_Qlt.
    eapply Qle_lt_trans; [apply Qfloor_le|].
    rewrite <- (Qmult_1_l (inject_Z (Z.of_nat n))) at 2.
    now apply Qmult_lt_r. }
  lia.
Qed.

Lemma getRandomMove_cases (board : list jsval) (r : Q) :
  (0 <= r)%Q -> (r < 1)%Q ->
  (getAvailableMoves board = [] /\ getRandomMove board r = None)
  \/ (exists (idx m : nat),
        (idx < length (getAvailableMoves board))%nat
        /\ getAvailableMoves board !! idx = Some m
        /\ getRandomMove board r = Some m).
Proof.
  intros H0 H1. unfold getRandomMove. cbv zeta.
  destruct (getAvailableMoves board) as [|m0 rest] eqn:Hav.
  - left. split; reflexivity.
  - right. change (length (m0 :: rest) =? 0)%nat with false. cbv iota.
    set (idx := Z.to_nat
                  (Qfloor (r * inject_Z (Z.of_nat (length (m0 :: rest)))))).
    assert (Hidx : (idx < length (m0 :: rest))%nat)
      by (apply random_index_range; simpl; auto; lia).
    clearbody idx.
    destruct (lookup_lt_is_Some_2 (m0 :: rest) _ Hidx) as [m Hm].
    exists idx, m. auto.
Qed.

Lemma getRandomMove_none_iff (board : list jsval) (r : Q) :
  (0 <= r)%Q -> (r < 1)%Q ->
  getRandomMove board r = None <-> getAvailableMoves board = [].
Proof.
  intros H0 H1.
  destruct (getRandomMove_cases board r H0 H1)
    as [[Hav Hres] | (idx & m & Hidx & Hm & Hres)].
  - rewrite Hres, Hav. tauto.
  - rewrite Hres. split; [discriminate|].
    intros Hav. rewrite Hav in Hm. discriminate.
Qed.

(** X14. With [Math.random()] in its range [0, 1), [getRandomMove]
    answers [null] exactly when no slot is empty, every move it answers
    with is legal, and on a board with a single empty slot it answers
    with that slot. *)
Theorem getRandomMove_legal (board : list jsval) (r : Q) :
  (0 <= r)%Q -> (r < 1)%Q ->
  (getRandomMove board r = None <-> getAvailableMoves board = [])
  /\ (forall m, getRandomMove board r = Some m ->
        validateMoveByIndex board (Z.of_nat m) = true)
  /\ (forall m, getAvailableMoves board = [m] ->
        getRandomMove board r = Some m).
Proof.
  intros H0 H1.
  split; [now apply getRandomMove_none_iff|].
  destruct (getRandomMove_cases board r H0 H1)
    as [[Hav Hres] | (idx & m & Hidx & Hm & Hres)]; rewrite Hres.
  - split; [discriminate|]. intros m Hm. rewrite Hav in Hm. discriminate.
  - split.
    + intros m' [= <-]. apply legal_available.
      apply list_elem_of_lookup. eauto.
    + intros m' Hav. rewrite Hav in Hm, Hidx. simpl in Hidx.
      destruct idx; [simpl in Hm; congruence | lia].
Qed.

Lemma getRandomMove_legal_witness :
  (0 <= 1 # 2)%Q /\ (1 # 2 < 1)%Q
  /\ (getRandomMove cornerBoard (1 # 2) = None
      <-> getAvailableMoves cornerBoard = []).
Proof.
  assert (H0 : (0 <= 1 # 2)%Q) by (vm_compute; discriminate).
  assert (H1 : (1 # 2 < 1)%Q) by reflexivity.
  split; [exact H0|]. split; [exact H1|].
  exact (proj1 (getRandomMove_legal cornerBoard (1 # 2) H0 H1)).
Defined.

End RandomMove.

(** ** The engine: what every sequence of events preserves *)

Section EngineInvariant.

Import Rules AI BoardState GameEngine Play Invariants.

Lemma getGameResult_ongoing board :
  getGameResult board = "ONGOING"
  <-> ~ hasLine board X /\ ~ hasLine board O /\ ~ full board.
Proof.
  unfold getGameResult.
  pose proof (checkDraw_spec board) as HD.
  rewrite <- !checkWin_falsy in *.
  destruct (truthy (checkWin board X)); [intuition discriminate|].
  destruct (truthy (checkWin board O)); [intuition discriminate|].
  destruct (checkDraw board).
  - split; [discriminate|]. intros (_ & _ & H). exfalso. apply H.
    now apply HD.
  - split; [|reflexivity]. intros _. repeat split; auto.
    intros H. assert (false = true) by (apply HD; auto). discriminate.
Qed.

Lemma getGameResult_cases board :
  getGameResult board = "PLAYER_WON" \/ getGameResult board = "AI_WON"
  \/ getGameResult board = "DRAW" \/ getGameResult board = "ONGOING".
Proof.
  unfold getGameResult.
  destruct (truthy (checkWin board X)); [auto|].
  destruct (truthy (checkWin board O)); [auto|].
  destruct (checkDraw board); auto.
Qed.

Lemma getGameResult_won board :
  (getGameResult board = "PLAYER_WON" <-> hasLine board X)
  /\ (getGameResult board = "AI_WON"
      <-> ~ hasLine board X /\ hasLine board O).
Proof.
  unfold getGameResult.
  rewrite <- checkWin_falsy, <- !checkWin_truthy.
  destruct (truthy (checkWin board X)); [intuition discriminate|].
  destruct (truthy (checkWin board O)); [intuition discriminate|].
  destruct (checkDraw board); intuition discriminate.
Qed.

Lemma hasLine_insert_keep a (m : nat) (v p : jsval) :
  a !! m = Some JNull -> p <> JNull ->
  hasLine a p -> hasLine (<[m := v]> a) p.
Proof.
  intros Hm Hp (i & j & k & Hin & Hi & Hj & Hk).
  exists i, j, k. split; [assumption|].
  assert (Hget : forall n, arrGet a n = p -> arrGet (<[m := v]> a) n = p).
  { intros n Hn. unfold arrGet in *.
    destruct (Nat.eq_dec m n) as [->|Hne].
    - rewrite Hm in Hn. simpl in Hn. congruence.
    - now rewrite list_lookup_insert_ne. }
  auto.
Qed.

(** A board that is in progress after a marker was written to an empty
    slot was in progress before. *)
Lemma getGameResult_ongoing_before a (m : nat) (v : jsval) :
  a !! m = Some JNull ->
  getGameResult (<[m := v]> a) = "ONGOING" ->
  getGameResult a = "ONGOING".
Proof.
  intros Hm. rewrite !getGameResult_ongoing.
  intros (HX & HO & _). split; [|split].
  - intros H. apply HX.
    apply hasLine_insert_keep; [assumption | discriminate | assumption].
  - intros H. apply HO.
    apply hasLine_insert_keep; [assumption | discriminate | assumption].
  - intros H. apply (H JNull); [|reflexivity].
    apply list_elem_of_In, list_elem_of_lookup. eauto.
Qed.

(** Writing a marker to an empty slot of a won board leaves it won:
    a board that is open or drawn afterwards had no winner before. *)
Lemma winnerCombo_none_before a (m : nat) (v : jsval) :
  a !! m = Some JNull ->
  getGameResult (<[m := v]> a) = "ONGOING"
  \/ getGameResult (<[m := v]> a) = "DRAW" ->
  winnerCombo a = None.
Proof.
  intros Hm Hafter.
  assert (Hno : ~ hasLine (<[m := v]> a) X /\ ~ hasLine (<[m := v]> a) O).
  { revert Hafter. unfold getGameResult. rewrite <- !checkWin_falsy.
    destruct (truthy (checkWin (<[m := v]> a) X));
      [intros [H|H]; discriminate|].
    destruct (truthy (checkWin (<[m := v]> a) O));
      [intros [H|H]; discriminate|].
    auto. }
  destruct Hno as [HnX HnO].
  unfold winnerCombo.
  destruct (getGameResult_won a) as [HX HO].
  destruct (String.eqb_spec (getGameResult a) "PLAYER_WON") as [E|_].
  { exfalso. apply HnX. apply hasLine_insert_keep;
      [assumption | discriminate | now apply HX]. }
  destruct (String.eqb_spec (getGameResult a) "AI_WON") as [E|_];
    [|reflexivity].
  exfalso. apply HnO. apply hasLine_insert_keep;
    [assumption | discriminate | now apply HO].
Qed.

Lemma syncStores_eq e a :
  heap (bstate e) !! cells (this (bstate e)) = Some a ->
  syncStores e
  = {| bstate := {| heap := <[fresh (dom (heap (bstate e))) := a]>
                              (heap (bstate e));
                    this := this (bstate e) |};
       stores := setBoardStores (stores e)
                   (fresh (dom (heap (bstate e))))
                   (BoardState.currentPlayer (this (bstate e)))
                   (status (this (bstate e)));
       pendingAI := pendingAI e |}.
Proof.
  intros Ha. unfold syncStores. now rewrite (getBoard_eq _ a Ha).
Qed.

Lemma syncStores_engineInv e a :
  heap (bstate e) !! cells (this (bstate e)) = Some a ->
  length a = 9%nat -> Forall marker a ->
  BoardState.currentPlayer (this (bstate e)) = X
  \/ BoardState.currentPlayer (this (bstate e)) = O ->
  status (this (bstate e)) = JStr (getGameResult a) ->
  winningCombination (stores e) = winnerCombo a ->
  engineInv (syncStores e).
Proof.
  intros Ha Hlen Hall Hcur Hst Hwc.
  rewrite (syncStores_eq e a Ha).
  exists a. cbn.
  split; [rewrite lookup_insert_ne; [assumption | now apply (alloc_fresh _ a)]|].
  split; [apply lookup_insert_eq|].
  repeat (split; [solve [auto]|]). assumption.
Qed.

(** Publishing and then checking for the end of the game restores the
    invariant, provided the status was still 'ONGOING' in case the
    board is. *)
Lemma sync_check_engineInv e a :
  heap (bstate e) !! cells (this (bstate e)) = Some a ->
  length a = 9%nat -> Forall marker a ->
  BoardState.currentPlayer (this (bstate e)) = X
  \/ BoardState.currentPlayer (this (bstate e)) = O ->
  (getGameResult a = "ONGOING" ->
   status (this (bstate e)) = JStr "ONGOING") ->
  (getGameResult a = "ONGOING" \/ getGameResult a = "DRAW" ->
   winningCombination (stores e) = None) ->
  engineInv (snd (checkGameEnd (syncStores e)))
  /\ fst (checkGameEnd (syncStores e))
     = negb (String.eqb (getGameResult a) "ONGOING")
  /\ pendingAI (snd (checkGameEnd (syncStores e))) = pendingAI e
  /\ aiThinking (stores (snd (checkGameEnd (syncStores e))))
     = aiThinking (stores e)
  /\ difficulty (stores (snd (checkGameEnd (syncStores e))))
     = difficulty (stores e)
  /\ BoardState.currentPlayer
       (this (bstate (snd (checkGameEnd (syncStores e)))))
     = BoardState.currentPlayer (this (bstate e))
  /\ heap (bstate (snd (checkGameEnd (syncStores e))))
       !! cells (this (bstate (snd (checkGameEnd (syncStores e)))))
     = Some a.
Proof.
  intros Ha Hlen Hall Hcur Hst Hwc.
  rewrite (syncStores_eq e a Ha).
  set (l1 := fresh (dom (heap (bstate e)))).
  assert (Hl1 : l1 <> cells (this (bstate e)))
    by (now apply (alloc_fresh _ a)).
  set (h1 := <[l1 := a]> (heap (bstate e))).
  assert (Ha1 : h1 !! cells (this (bstate e)) = Some a)
    by (unfold h1; now rewrite lookup_insert_ne).
  assert (Hb1 : h1 !! l1 = Some a) by apply lookup_insert_eq.
  unfold checkGameEnd. cbn [bstate].
  rewrite (getBoard_eq {| heap := h1; this := this (bstate e) |} a Ha1).
  cbn [heap this].
  set (l2 := fresh (dom h1)).
  assert (Hl2 : l2 <> cells (this (bstate e)))
    by (now apply (alloc_fresh _ a)).
  assert (Hl21 : l2 <> l1) by (now apply (alloc_fresh _ a)).
  rewrite (contents_Some _ _ a) by apply lookup_insert_eq.
  destruct (String.eqb_spec (getGameResult a) "ONGOING") as [Hres|Hres];
    cbn [negb].
  - rewrite Hres in *. cbn [fst snd].
    split; [|split; [reflexivity|split; [reflexivity|split; [reflexivity|
              split; [reflexivity|]]]]].
    + exists a. cbn.
      split; [now rewrite lookup_insert_ne|].
      split; [now rewrite lookup_insert_ne|].
      rewrite (Hst eq_refl), Hres.
      repeat (split; [solve [auto]|]).
      rewrite (Hwc (or_introl eq_refl)).
      unfold winnerCombo. now rewrite Hres.
    + split; [reflexivity|]. cbn. now rewrite lookup_insert_ne.
  - cbn [fst snd].
    set (e2 := if String.eqb (getGameResult a) "PLAYER_WON" then _
               else if String.eqb (getGameResult a) "AI_WON" then _
               else _).
    assert (Hbs : bstate e2
                  = mkState (<[l2 := a]> h1)
                      (mkBoard (cells (this (bstate e)))
                         (BoardState.currentPlayer (this (bstate e)))
                         (JStr (getGameResult a)))).
    { unfold e2.
      destruct (String.eqb (getGameResult a) "PLAYER_WON");
        [reflexivity|].
      destruct (String.eqb (getGameResult a) "AI_WON"); reflexivity. }
    assert (Hpe : pendingAI e2 = pendingAI e).
    { unfold e2.
      destruct (String.eqb (getGameResult a) "PLAYER_WON");
        [reflexivity|].
      destruct (String.eqb (getGameResult a) "AI_WON"); reflexivity. }
    assert (Hai : aiThinking (stores e2) = aiThinking (stores e)).
    { unfold e2.
      destruct (String.eqb (getGameResult a) "PLAYER_WON");
        [reflexivity|].
      destruct (String.eqb (getGameResult a) "AI_WON"); reflexivity. }
    assert (Hdi : difficulty (stores e2) = difficulty (stores e)).
    { unfold e2.
      destruct (String.eqb (getGameResult a) "PLAYER_WON");
        [reflexivity|].
      destruct (String.eqb (getGameResult a) "AI_WON"); reflexivity. }
    assert (Hwc2 : winningCombination (stores e2) = winnerCombo a).
    { unfold e2, winnerCombo.
      destruct (String.eqb (getGameResult a) "PLAYER_WON") eqn:E1;
        [reflexivity|].
      destruct (String.eqb (getGameResult a) "AI_WON") eqn:E2;
        [reflexivity|].
      cbn. apply Hwc. right.
      apply String.eqb_neq in E1, E2.
      destruct (getGameResult_cases a) as [H|[H|[H|H]]]; congruence. }
    clearbody e2.
    assert (Ha2 : heap (bstate e2) !! cells (this (bstate e2)) = Some a)
      by (rewrite Hbs; cbn; now rewrite lookup_insert_ne).
    split; [|split; [reflexivity|]].
    + apply (syncStores_engineInv e2 a Ha2); auto;
        rewrite Hbs; cbn; auto.
    + rewrite (syncStores_eq e2 a Ha2). cbn.
      split; [assumption|]. split; [assumption|]. split; [assumption|].
      rewrite Hbs. cbn. split; [reflexivity|].
      rewrite lookup_insert_ne; [now rewrite lookup_insert_ne|].
      apply (alloc_fresh _ a). now rewrite lookup_insert_ne.
Qed.

End EngineInvariant.

Section EngineSteps.

Import Rules AI BoardState GameEngine Play Invariants.

Lemma engineInv_thinking e (v : bool) (n : nat) :
  engineInv e ->
  engineInv {| bstate := bstate e;
               stores := setAiThinking (stores e) v;
               pendingAI := n |}.
Proof.
  intros (a & H). exists a. exact H.
Qed.

Lemma newEngine_engineInv : engineInv newEngine.
Proof.
  exists (replicate 9 JNull).
  split; [reflexivity|]. split; [reflexivity|].
  split; [reflexivity|]. split; [repeat constructor|].
  repeat (split; [reflexivity|]). split; [now left|].
  split; reflexivity.
Qed.

Lemma initializeGame_engineInv e selectedDifficulty :
  engineInv (initializeGame e selectedDifficulty).
Proof.
  unfold initializeGame.
  apply (syncStores_engineInv _ (replicate 9 JNull)); cbn [bstate withStores withBoard].
  - apply initialize_cells_live.
  - reflexivity.
  - repeat constructor.
  - now left.
  - reflexivity.
  - reflexivity.
Qed.

Lemma resetGame_engineInv e : engineInv (resetGame e).
Proof.
  unfold resetGame.
  apply (syncStores_engineInv _ (replicate 9 JNull)); cbn [bstate withStores withBoard].
  - apply initialize_cells_live.
  - reflexivity.
  - repeat constructor.
  - now left.
  - reflexivity.
  - reflexivity.
Qed.

Lemma handleAIMove_engineInv e : engineInv e -> engineInv (handleAIMove e).
Proof.
  intros H. unfold handleAIMove.
  destruct (isGameOver (bstate e)); [assumption|].
  destruct (negb (strictEq (getCurrentPlayer (bstate e)) O));
    [assumption|].
  now apply (engineInv_thinking e true (S (pendingAI e))).
Qed.

Lemma isGameOver_false st :
  isGameOver st = false -> status (this st) = JStr "ONGOING".
Proof.
  unfold isGameOver. intros H. apply negb_false_iff in H.
  now apply strictEq_eq in H.
Qed.

Lemma switchTurn_marker st :
  BoardState.currentPlayer (this (switchTurn st)) = X
  \/ BoardState.currentPlayer (this (switchTurn st)) = O.
Proof.
  unfold switchTurn. cbn.
  destruct (strictEq (BoardState.currentPlayer (this st)) X); auto.
Qed.

Lemma handlePlayerMove_engineInv e row col :
  engineInv e -> engineInv (snd (handlePlayerMove e row col)).
Proof.
  intros Hinv. unfold handlePlayerMove.
  destruct (isGameOver (bstate e)) eqn:Hover; [assumption|].
  destruct (negb (strictEq (getCurrentPlayer (bstate e)) X));
    [assumption|].
  destruct (aiThinking (stores e)); [assumption|].
  destruct (placeMove (bstate e) row col X) as [[|] st] eqn:Hpl;
    cbn [negb]; [|assumption].
  destruct (placeMove_true_inv _ _ _ _ _ Hpl) as (Hv & He & Hp).
  destruct (placeMove_accepts (bstate e) row col X Hv He Hp)
    as (a & Ha & Hi & Hacc).
  rewrite Hacc in Hpl. injection Hpl as <-.
  destruct Hinv as (a' & Ha' & _ & Hlen & Hall & _ & _ & _ & Hst & Hwc).
  assert (a' = a) by congruence. subst a'.
  assert (Hwc0 : winningCombination (stores e) = None).
  { rewrite Hwc. apply isGameOver_false in Hover.
    rewrite Hover in Hst. injection Hst as Hst.
    unfold winnerCombo. now rewrite <- Hst. }
  set (e1 := withBoard e (switchTurn _)).
  destruct (sync_check_engineInv e1
              (<[Z.to_nat (toIndex row col) := X]> a))
    as (Hinv' & _).
  - cbn. apply lookup_insert_eq.
  - now rewrite length_insert.
  - apply Forall_insert; [assumption|]. unfold marker. tauto.
  - apply switchTurn_marker.
  - intros _. cbn. now apply isGameOver_false.
  - intros _. exact Hwc0.
  - destruct (checkGameEnd (syncStores e1)) as [[|] e2];
      cbn [snd] in *; [assumption|].
    now apply handleAIMove_engineInv.
Qed.

Lemma getMove_available board difficulty r (m : nat) :
  getMove board difficulty r = Some (Some m) ->
  m ∈ AI.getAvailableMoves board.
Proof.
  unfold getMove.
  destruct (strictEq difficulty (JStr "EASY")).
  - unfold getRandomMove. cbv zeta.
    destruct (length (AI.getAvailableMoves board) =? 0)%nat;
      [discriminate|].
    intros [= H]. apply list_elem_of_lookup. eauto.
  - unfold getMinimaxMove.
    destruct (length (AI.getAvailableMoves board) =? 0)%nat;
      [discriminate|].
    destruct (bestLoop_spec board (AI.getAvailableMoves board)
                ltac:(auto) None NegInf) as (res & Hres & Hcase).
    rewrite Hres. intros [= ->].
    destruct Hcase as [[H _] | (before & m' & after & Heq & H & _)].
    + discriminate.
    + injection H as <-. rewrite Heq.
      apply elem_of_app. right. left.
Qed.

Lemma getMove_total board difficulty r :
  exists move, getMove board difficulty r = Some move.
Proof.
  unfold getMove.
  destruct (strictEq difficulty (JStr "EASY")); [eauto|].
  apply getMinimaxMove_total.
Qed.

(** What the continuation of [handleAIMove] does to a state that
    satisfies the invariant with board [a]: nothing to the board when
    the strategy answers [null], and otherwise one 'O' on an empty
    slot. *)
Lemma resumeAIMove_spec e r a :
  engineInv e ->
  heap (bstate e) !! cells (this (bstate e)) = Some a ->
  exists e',
    resumeAIMove e r = Some e'
    /\ engineInv e'
    /\ aiThinking (stores e') = false
    /\ pendingAI e' = pendingAI e
    /\ ((getMove a (difficulty (stores e)) r = Some None
         /\ heap (bstate e') !! cells (this (bstate e')) = Some a
         /\ BoardState.currentPlayer (this (bstate e'))
            = BoardState.currentPlayer (this (bstate e)))
        \/ (exists m : nat,
              getMove a (difficulty (stores e)) r = Some (Some m)
              /\ a !! m = Some JNull
              /\ heap (bstate e') !! cells (this (bstate e'))
                 = Some (<[m := O]> a)
              /\ BoardState.currentPlayer (this (bstate e'))
                 = BoardState.currentPlayer
                     (this (switchTurn (bstate e))))).
Proof.
  intros Hinv Ha.
  destruct Hinv as (a' & Ha' & Hb & Hlen & Hall & Hcp & Hgs & Hcur & Hst
                    & Hwc).
  assert (a' = a) by congruence. subst a'.
  unfold resumeAIMove.
  rewrite (getBoard_eq (bstate e) a Ha).
  set (l1 := fresh (dom (heap (bstate e)))).
  assert (Hl1 : l1 <> cells (this (bstate e)))
    by (now apply (alloc_fresh _ a)).
  assert (Hl1b : l1 <> board (stores e))
    by (now apply (alloc_fresh _ a)).
  cbn [heap this withBoard bstate stores].
  rewrite (contents_Some _ _ a) by apply lookup_insert_eq.
  destruct (getMove_total a (difficulty (stores e)) r) as [move Hmove].
  rewrite Hmove.
  destruct move as [m|].
  - pose proof (getMove_available _ _ _ _ Hmove) as Hm.
    apply getAvailableMoves_elem in Hm as [Hm9 Hnull].
    assert (Hlook : a !! m = Some JNull).
    { unfold arrGet in Hnull.
      destruct (a !! m); simpl in Hnull; congruence. }
    destruct (toCoords_in_range (Z.of_nat m) ltac:(lia)) as [Hv Hidx].
    set (st1 := {| heap := <[l1 := a]> (heap (bstate e));
                   this := this (bstate e) |}).
    assert (Ha1 : heap st1 !! cells (this st1) = Some a)
      by (cbn; now rewrite lookup_insert_ne).
    destruct (placeMove_accepts st1 (fst (toCoords (Z.of_nat m)))
                (snd (toCoords (Z.of_nat m))) O Hv)
      as (a1 & Ha1' & _ & Hacc).
    { rewrite (contents_Some _ _ _ Ha1), Hidx.
      rewrite arrGetZ_nonneg by lia. now rewrite Nat2Z.id. }
    { now right. }
    assert (a1 = a) by congruence. subst a1.
    rewrite Hidx, Nat2Z.id in Hacc.
    unfold placeMoveByIndex. rewrite Hacc.
    pose (e1 := {| bstate :=
                     switchTurn
                       {| heap := <[cells (this st1) := <[m := O]> a]>
                                    (heap st1);
                          this := this st1 |};
                   stores := stores e;
                   pendingAI := pendingAI e |}).
    destruct (sync_check_engineInv e1 (<[m := O]> a))
      as (Hinv' & _ & Hpend & Hthink & _ & Hcur' & Hcells').
    + cbn. apply lookup_insert_eq.
    + now rewrite length_insert.
    + apply Forall_insert; [assumption|]. unfold marker. tauto.
    + apply switchTurn_marker.
    + intros Hres. cbn. rewrite Hst. f_equal.
      now apply (getGameResult_ongoing_before a m O).
    + intros Hres. cbn. rewrite Hwc.
      now apply (winnerCombo_none_before a m O).
    + eexists. split; [reflexivity|].
      split; [now apply engineInv_thinking|].
      split; [reflexivity|]. split; [exact Hpend|].
      right. exists m. cbn [bstate].
      split; [reflexivity|]. split; [assumption|].
      split; [exact Hcells'|]. exact Hcur'.
  - eexists. split; [reflexivity|].
    split; [|split; [reflexivity|split; [reflexivity|]]].
    + exists a. cbn.
      split; [now rewrite lookup_insert_ne|].
      split; [now rewrite lookup_insert_ne|].
      repeat (split; [solve [auto]|]). assumption.
    + left. cbn. split; [reflexivity|].
      split; [now rewrite lookup_insert_ne | reflexivity].
Qed.

Lemma step_engineInv e ev :
  engineInv e -> exists e', step e ev = Some e' /\ engineInv e'.
Proof.
  intros Hinv. destruct ev as [d | row col | | r]; cbn [step].
  - eexists. split; [reflexivity | apply initializeGame_engineInv].
  - eexists. split; [reflexivity | now apply handlePlayerMove_engineInv].
  - eexists. split; [reflexivity | apply resetGame_engineInv].
  - destruct (pendingAI e) as [|n] eqn:Hp; [eauto|].
    destruct Hinv as (a & Hinv).
    destruct (resumeAIMove_spec
                {| bstate := bstate e; stores := stores e; pendingAI := n |}
                r a) as (e' & He' & Hinv' & _).
    + exists a. exact Hinv.
    + apply Hinv.
    + eauto.
Qed.

Lemma run_engineInv evs e :
  engineInv e -> exists e', run e evs = Some e' /\ engineInv e'.
Proof.
  revert e. induction evs as [|ev evs IH]; intros e Hinv; cbn [run].
  - eauto.
  - destruct (step_engineInv e ev Hinv) as (e1 & -> & Hinv1).
    now apply IH.
Qed.

(** X15. After every sequence of calls ([initializeGame],
    [handlePlayerMove], [resetGame]) and timer expiries, from the
    engine as constructed, the published stores mirror the engine's
    board: the same slots, the same turn, the same status. *)
Theorem engine_stores_mirror_board (evs : list event) :
  exists e,
    run newEngine evs = Some e
    /\ snapStoreBoard (getState e) = snapBoard (getState e)
    /\ snapStoreCurrentPlayer (getState e) = snapCurrentPlayer (getState e)
    /\ snapStoreStatus (getState e) = snapStatus (getState e).
Proof.
  destruct (run_engineInv evs newEngine newEngine_engineInv)
    as (e & He & a & Ha & Hb & _ & _ & Hcp & Hgs & _).
  exists e. split; [assumption|]. cbn.
  rewrite (contents_Some _ _ _ Ha), (contents_Some _ _ _ Hb). auto.
Qed.

(** X16. After every such sequence the board has nine slots, each
    empty or a marker, the turn is 'X' or 'O', and the status is the
    classification of the board by [getGameResult]: the game is
    reported over exactly when the rules say so. *)
Theorem engine_status_is_result (evs : list event) :
  exists e,
    run newEngine evs = Some e
    /\ length (snapBoard (getState e)) = 9%nat
    /\ Forall marker (snapBoard (getState e))
    /\ (snapCurrentPlayer (getState e) = X
        \/ snapCurrentPlayer (getState e) = O)
    /\ snapStatus (getState e)
       = JStr (getGameResult (snapBoard (getState e)))
    /\ isGameOver (bstate e)
       = negb (String.eqb (getGameResult (snapBoard (getState e)))
                          "ONGOING").
Proof.
  destruct (run_engineInv evs newEngine newEngine_engineInv)
    as (e & He & a & Ha & _ & Hlen & Hall & _ & _ & Hcur & Hst & _).
  exists e. split; [assumption|]. cbn.
  rewrite (contents_Some _ _ _ Ha).
  repeat (split; [solve [auto]|]).
  unfold isGameOver, getStatus. rewrite Hst. reflexivity.
Qed.

(** X21. After every such sequence the published winning combination
    is the one of the board: when the status is a win it is a
    combination whose three slots hold the winner's marker, the first
    such in the order of [checkWin]; while the game is open or drawn it
    is [null]. *)
Theorem engine_winning_combination (evs : list event) :
  exists e,
    run newEngine evs = Some e
    /\ (snapStatus (getState e) = JStr "PLAYER_WON" ->
        winningCombination (stores e)
        = checkWin (snapBoard (getState e)) X
        /\ exists combo,
             winningCombination (stores e) = Some combo
             /\ comboHeldBy (snapBoard (getState e)) X combo = true)
    /\ (snapStatus (getState e) = JStr "AI_WON" ->
        winningCombination (stores e)
        = checkWin (snapBoard (getState e)) O
        /\ exists combo,
             winningCombination (stores e) = Some combo
             /\ comboHeldBy (snapBoard (getState e)) O combo = true)
    /\ (snapStatus (getState e) = JStr "ONGOING"
        \/ snapStatus (getState e) = JStr "DRAW" ->
        winningCombination (stores e) = None).
Proof.
  destruct (run_engineInv evs newEngine newEngine_engineInv)
    as (e & He & a & Ha & _ & _ & _ & _ & _ & _ & Hst & Hwc).
  exists e. split; [assumption|]. cbn.
  rewrite (contents_Some _ _ _ Ha).
  unfold getStatus. rewrite Hst, Hwc. unfold winnerCombo.
  assert (Hheld : forall p, truthy (checkWin a p) = true ->
            exists combo, checkWin a p = Some combo
                          /\ comboHeldBy a p combo = true).
  { intros p Hp. destruct (checkWin a p) as [combo|] eqn:E;
      [|discriminate].
    exists combo. split; [reflexivity|].
    apply firstCombo_prefix in E as (before & after & _ & Hc & _).
    exact Hc. }
  destruct (getGameResult_won a) as [HX HO].
  split; [|split].
  - intros [= Hres]. rewrite Hres. cbn. split; [reflexivity|].
    apply Hheld, checkWin_truthy. now apply HX.
  - intros [= Hres]. rewrite Hres. cbn. split; [reflexivity|].
    apply Hheld, checkWin_truthy. now apply HO.
  - intros [[= Hres] | [= Hres]]; rewrite Hres; reflexivity.
Qed.

End EngineSteps.

Section EngineCalls.

Import Rules AI BoardState GameEngine Play Invariants.

Lemma handlePlayerMove_fst (e : Engine) (row col : Z) :
  fst (handlePlayerMove e row col)
  = negb (isGameOver (bstate e))
    && strictEq (getCurrentPlayer (bstate e)) X
    && negb (aiThinking (stores e))
    && validateMove (contents (heap (bstate e))
                              (cells (this (bstate e)))) row col
  /\ (fst (handlePlayerMove e row col) = false ->
      snd (handlePlayerMove e row col) = e).
Proof.
  unfold handlePlayerMove.
  destruct (isGameOver (bstate e)); [split; reflexivity|].
  destruct (strictEq (getCurrentPlayer (bstate e)) X);
    [|split; reflexivity].
  destruct (aiThinking (stores e)); [split; reflexivity|].
  pose proof (placeMove_fst (bstate e) row col X) as Hfst.
  change (strictEq X X || strictEq X O) with true in Hfst.
  rewrite andb_true_r in Hfst.
  destruct (placeMove (bstate e) row col X) as [[|] st] eqn:Hpl;
    cbn [negb andb fst] in *.
  - rewrite <- Hfst.
    destruct (checkGameEnd _) as [[|] e2]; split;
      (reflexivity || discriminate).
  - rewrite <- Hfst. split; reflexivity.
Qed.

(** X17. [handlePlayerMove] accepts a move exactly when the game is
    not over, it is the turn of 'X', no computer move is being thought
    over, and the rules call the move legal on the board; a rejected
    call changes nothing at all.  The same by index, for every
    integer. *)
Theorem handlePlayerMove_guards (e : Engine) (row col index : Z) :
  fst (handlePlayerMove e row col)
  = negb (isGameOver (bstate e))
    && strictEq (getCurrentPlayer (bstate e)) X
    && negb (aiThinking (stores e))
    && validateMove (contents (heap (bstate e))
                              (cells (this (bstate e)))) row col
  /\ (fst (handlePlayerMove e row col) = false ->
      snd (handlePlayerMove e row col) = e)
  /\ fst (handlePlayerMoveByIndex e index)
     = negb (isGameOver (bstate e))
       && strictEq (getCurrentPlayer (bstate e)) X
       && negb (aiThinking (stores e))
       && validateMoveByIndex (contents (heap (bstate e))
                                        (cells (this (bstate e)))) index
  /\ (fst (handlePlayerMoveByIndex e index) = false ->
      snd (handlePlayerMoveByIndex e index) = e).
Proof.
  destruct (handlePlayerMove_fst e row col) as [H1 H2].
  split; [exact H1|]. split; [exact H2|].
  unfold handlePlayerMoveByIndex.
  destruct (handlePlayerMove_fst e (fst (toCoords index))
              (snd (toCoords index))) as [H3 H4].
  rewrite validateMove_toCoords in H3. auto.
Qed.

Lemma resetGame_eq e :
  resetGame e
  = {| bstate :=
         {| heap := <[fresh (dom (heap (initialize (heap (bstate e))))) :=
                        replicate 9 JNull]>
                      (heap (initialize (heap (bstate e))));
            this := this (initialize (heap (bstate e))) |};
       stores := mkStores
                   (fresh (dom (heap (initialize (heap (bstate e))))))
                   X (JStr "ONGOING") (difficulty (stores e))
                   false false None;
       pendingAI := pendingAI e |}.
Proof.
  unfold resetGame.
  rewrite (syncStores_eq _ (replicate 9 JNull))
    by (apply initialize_cells_live).
  reflexivity.
Qed.

Lemma initializeGame_eq e d :
  initializeGame e d
  = {| bstate :=
         {| heap := <[fresh (dom (heap (initialize (heap (bstate e))))) :=
                        replicate 9 JNull]>
                      (heap (initialize (heap (bstate e))));
            this := this (initialize (heap (bstate e))) |};
       stores := mkStores
                   (fresh (dom (heap (initialize (heap (bstate e))))))
                   X (JStr "ONGOING")
                   (if strictEq d JUndefined then JStr "HARD" else d)
                   true false None;
       pendingAI := pendingAI e |}.
Proof.
  unfold initializeGame.
  rewrite (syncStores_eq _ (replicate 9 JNull))
    by (apply initialize_cells_live).
  reflexivity.
Qed.

(** X18. From any state whatever, [resetGame] and [initializeGame]
    leave the clean state: an empty board, 'X' to move, status
    'ONGOING', published as such, nobody thinking and no winning
    combination.  [resetGame] keeps the selected difficulty and marks
    the game as not started; [initializeGame] records the difficulty it
    is given ('HARD' for [undefined]) and marks the game as started.
    Neither cancels a computer move that is waiting for its timer. *)
Theorem reset_and_initialize_from_any_state (e : Engine) (d : jsval) :
  (cleanReset (getState (resetGame e))
   /\ difficulty (stores (resetGame e)) = difficulty (stores e)
   /\ gameStarted (stores (resetGame e)) = false
   /\ aiThinking (stores (resetGame e)) = false
   /\ winningCombination (stores (resetGame e)) = None
   /\ pendingAI (resetGame e) = pendingAI e)
  /\ (cleanReset (getState (initializeGame e d))
      /\ difficulty (stores (initializeGame e d))
         = (if strictEq d JUndefined then JStr "HARD" else d)
      /\ gameStarted (stores (initializeGame e d)) = true
      /\ aiThinking (stores (initializeGame e d)) = false
      /\ winningCombination (stores (initializeGame e d)) = None
      /\ pendingAI (initializeGame e d) = pendingAI e).
Proof.
  assert (Hclean : forall ss n,
    GameEngine.currentPlayer ss = X -> gameStatus ss = JStr "ONGOING" ->
    board ss = fresh (dom (heap (initialize (heap (bstate e))))) ->
    cleanReset
      (getState
         {| bstate :=
              {| heap :=
                   <[fresh (dom (heap (initialize (heap (bstate e))))) :=
                       replicate 9 JNull]>
                     (heap (initialize (heap (bstate e))));
                 this := this (initialize (heap (bstate e))) |};
            stores := ss; pendingAI := n |})).
  { intros ss n Hcp Hgs Hb.
    pose proof (initialize_cells_live (heap (bstate e))) as Hlive.
    unfold cleanReset, getState. cbn [snapBoard snapCurrentPlayer
      snapStatus snapStoreBoard snapStoreCurrentPlayer snapStoreStatus
      bstate stores heap this].
    rewrite Hb, Hcp, Hgs.
    rewrite (contents_Some _ _ (replicate 9 JNull))
      by (rewrite lookup_insert_ne;
          [assumption | now apply (alloc_fresh _ (replicate 9 JNull))]).
    rewrite (contents_Some _ _ (replicate 9 JNull))
      by apply lookup_insert_eq.
    repeat split. }
  rewrite resetGame_eq, initializeGame_eq.
  split; (split; [apply Hclean; reflexivity|]); repeat split.
Qed.

(** X19. The difficulty can be changed only between games:
    [setDifficulty] is refused, leaving everything as it is, whenever a
    game has been started, in particular right after [initializeGame];
    after [resetGame] it is accepted and stores the value it is given,
    and [startNewGame] then starts a game with that value, or with
    'HARD' when the value is [undefined]. *)
Theorem setDifficulty_only_between_games (e : Engine) (d d' : jsval) :
  (gameStarted (stores e) = true -> setDifficulty e d' = (false, e))
  /\ setDifficulty (initializeGame e d) d' = (false, initializeGame e d)
  /\ fst (setDifficulty (resetGame e) d') = true
  /\ difficulty (stores (snd (setDifficulty (resetGame e) d'))) = d'
  /\ difficulty
       (stores (startNewGame (snd (setDifficulty (resetGame e) d'))))
     = (if strictEq d' JUndefined then JStr "HARD" else d')
  /\ gameStarted
       (stores (startNewGame (snd (setDifficulty (resetGame e) d'))))
     = true.
Proof.
  split; [intros H; unfold setDifficulty; now rewrite H|].
  rewrite initializeGame_eq, resetGame_eq.
  split; [reflexivity|]. split; [reflexivity|]. split; [reflexivity|].
  unfold startNewGame. rewrite initializeGame_eq.
  split; reflexivity.
Qed.

End EngineCalls.

Section EngineRound.

Import Rules AI BoardState GameEngine Play Invariants.

Lemma ongoing_has_move a :
  (length a <= 9)%nat -> getGameResult a = "ONGOING" ->
  AI.getAvailableMoves a <> [].
Proof.
  intros Hlen Hres. unfold getGameResult in Hres.
  destruct (truthy (checkWin a X)) eqn:HX; [discriminate|].
  destruct (truthy (checkWin a O)) eqn:HO; [discriminate|].
  destruct (checkDraw a) eqn:HD; [discriminate|].
  now apply nonterminal_has_move.
Qed.

Lemma getMove_some a difficulty r :
  (length a <= 9)%nat -> AI.getAvailableMoves a <> [] ->
  (0 <= r)%Q -> (r < 1)%Q ->
  exists m : nat, getMove a difficulty r = Some (Some m).
Proof.
  intros Hlen Hne H0 H1. unfold getMove.
  destruct (strictEq difficulty (JStr "EASY")).
  - destruct (getRandomMove a r) as [m|] eqn:Hm; [eauto|].
    exfalso. apply Hne.
    now apply (proj1 (getRandomMove_none_iff a r H0 H1)).
  - destruct (getMinimaxMove_chooses a Hlen Hne)
      as (before & m & after & _ & Hres & _).
    eauto.
Qed.

(** What an accepted [handlePlayerMove] leaves. *)
Lemma handlePlayerMove_accept_spec e row col a :
  engineInv e ->
  heap (bstate e) !! cells (this (bstate e)) = Some a ->
  fst (handlePlayerMove e row col) = true ->
  engineInv (snd (handlePlayerMove e row col))
  /\ heap (bstate (snd (handlePlayerMove e row col)))
       !! cells (this (bstate (snd (handlePlayerMove e row col))))
     = Some (<[Z.to_nat (toIndex row col) := X]> a)
  /\ BoardState.currentPlayer
       (this (bstate (snd (handlePlayerMove e row col)))) = O
  /\ difficulty (stores (snd (handlePlayerMove e row col)))
     = difficulty (stores e)
  /\ (getGameResult (<[Z.to_nat (toIndex row col) := X]> a) = "ONGOING" ->
      aiThinking (stores (snd (handlePlayerMove e row col))) = true
      /\ pendingAI (snd (handlePlayerMove e row col)) = S (pendingAI e))
  /\ (getGameResult (<[Z.to_nat (toIndex row col) := X]> a) <> "ONGOING" ->
      aiThinking (stores (snd (handlePlayerMove e row col))) = false
      /\ pendingAI (snd (handlePlayerMove e row col)) = pendingAI e).
Proof.
  intros Hinv Ha. unfold handlePlayerMove.
  destruct (isGameOver (bstate e)) eqn:Hover; [discriminate|].
  destruct (strictEq (getCurrentPlayer (bstate e)) X) eqn:Hturn;
    [|discriminate].
  destruct (aiThinking (stores e)) eqn:Hthink; [discriminate|].
  cbn [negb].
  destruct (placeMove (bstate e) row col X) as [[|] st] eqn:Hpl;
    cbn [negb]; [|discriminate].
  intros _.
  destruct (placeMove_true_inv _ _ _ _ _ Hpl) as (Hv & He & Hp).
  destruct (placeMove_accepts (bstate e) row col X Hv He Hp)
    as (a' & Ha' & Hi & Hacc).
  assert (a' = a) by congruence. subst a'.
  rewrite Hacc in Hpl. injection Hpl as <-.
  destruct Hinv as (a' & Ha'' & _ & Hlen & Hall & _ & _ & _ & Hst & Hwc).
  assert (a' = a) by congruence. subst a'.
  assert (Hwc0 : winningCombination (stores e) = None).
  { rewrite Hwc. apply isGameOver_false in Hover.
    rewrite Hover in Hst. injection Hst as Hst.
    unfold winnerCombo. now rewrite <- Hst. }
  set (a1 := <[Z.to_nat (toIndex row col) := X]> a).
  set (e1 := withBoard e (switchTurn _)).
  assert (Hcur1 : BoardState.currentPlayer (this (bstate e1)) = O).
  { unfold e1. cbn. unfold getCurrentPlayer in Hturn. now rewrite Hturn. }
  destruct (sync_check_engineInv e1 a1)
    as (Hinv' & Hfst & Hpend & Hai & Hdi & Hcur' & Hcells').
  - cbn. apply lookup_insert_eq.
  - unfold a1. now rewrite length_insert.
  - apply Forall_insert; [assumption|]. unfold marker. tauto.
  - apply switchTurn_marker.
  - intros _. cbn. now apply isGameOver_false.
  - intros _. exact Hwc0.
  - destruct (checkGameEnd (syncStores e1)) as [ended e2].
    cbn [fst snd] in *.
    destruct (String.eqb_spec (getGameResult a1) "ONGOING")
      as [Hres|Hres]; cbn [negb] in Hfst; subst ended; cbn [snd].
    + assert (Hover2 : isGameOver (bstate e2) = false).
      { destruct Hinv' as (a2 & Ha2 & _ & _ & _ & _ & _ & _ & Hst2 & _).
        assert (a2 = a1) by congruence. subst a2.
        unfold isGameOver. now rewrite Hst2, Hres. }
      unfold handleAIMove. rewrite Hover2.
      unfold getCurrentPlayer. rewrite Hcur', Hcur1. cbn.
      split; [exact (engineInv_thinking e2 true _ Hinv')|].
      split; [assumption|]. split; [now rewrite Hcur', Hcur1|].
      split; [assumption|].
      split; [intros _; split; [reflexivity | now rewrite Hpend]|].
      intros H. contradiction.
    + split; [assumption|]. split; [assumption|].
      split; [now rewrite Hcur', Hcur1|]. split; [assumption|].
      split; [intros H; contradiction|].
      intros _. split; [now rewrite Hai | assumption].
Qed.

(** X20. One round of play.  In any state the engine reaches with no
    computer move waiting, a call of [handlePlayerMove] that is
    accepted puts 'X' on the chosen slot.  If that ends the game, the
    status becomes the result and no computer move is scheduled.  If it
    does not, the lock is set and one computer move is scheduled; when
    its timer fires (with [Math.random()] in [0, 1)), one 'O' goes on a
    slot that was empty, the turn returns to 'X', the lock is released
    and nothing is left waiting. *)
Theorem player_move_then_computer_reply (evs : list event) (e : Engine)
    (row col : Z) (r : Q) :
  run newEngine evs = Some e ->
  pendingAI e = 0%nat ->
  fst (handlePlayerMove e row col) = true ->
  snapBoard (getState (snd (handlePlayerMove e row col)))
  = <[Z.to_nat (toIndex row col) := X]> (snapBoard (getState e))
  /\ (getGameResult (<[Z.to_nat (toIndex row col) := X]>
                       (snapBoard (getState e))) <> "ONGOING" ->
      pendingAI (snd (handlePlayerMove e row col)) = 0%nat
      /\ snapAiThinking (getState (snd (handlePlayerMove e row col)))
         = false
      /\ snapStatus (getState (snd (handlePlayerMove e row col)))
         = JStr (getGameResult
                   (<[Z.to_nat (toIndex row col) := X]>
                      (snapBoard (getState e)))))
  /\ (getGameResult (<[Z.to_nat (toIndex row col) := X]>
                       (snapBoard (getState e))) = "ONGOING" ->
      (0 <= r)%Q -> (r < 1)%Q ->
      snapAiThinking (getState (snd (handlePlayerMove e row col))) = true
      /\ exists e2 (m : nat),
           run e [HandlePlayerMove row col; TimerFires r] = Some e2
           /\ (<[Z.to_nat (toIndex row col) := X]>
                 (snapBoard (getState e))) !! m = Some JNull
           /\ snapBoard (getState e2)
              = <[m := O]> (<[Z.to_nat (toIndex row col) := X]>
                              (snapBoard (getState e)))
           /\ snapCurrentPlayer (getState e2) = X
           /\ snapAiThinking (getState e2) = false
           /\ pendingAI e2 = 0%nat).
Proof.
  intros Hrun Hpend Hacc.
  destruct (run_engineInv evs newEngine newEngine_engineInv)
    as (e' & He' & Hinv).
  assert (e' = e) by congruence. subst e'.
  pose proof Hinv as (a & Ha & _ & Hlen & Hall & _).
  destruct (handlePlayerMove_accept_spec e row col a Hinv Ha Hacc)
    as (Hinv1 & Hcells1 & Hcur1 & Hdi1 & Hon & Hoff).
  cbn [getState snapBoard snapAiThinking snapStatus snapCurrentPlayer].
  rewrite (contents_Some _ _ _ Ha), (contents_Some _ _ _ Hcells1).
  set (a1 := <[Z.to_nat (toIndex row col) := X]> a) in *.
  split; [reflexivity|]. split.
  - intros Hres. destruct (Hoff Hres) as [Hth Hp].
    split; [now rewrite Hp|]. split; [assumption|].
    destruct Hinv1 as (a2 & Ha2 & _ & _ & _ & _ & _ & _ & Hst2 & _).
    assert (a2 = a1) by congruence. subst a2. exact Hst2.
  - intros Hres H0 H1. destruct (Hon Hres) as [Hth Hp].
    split; [assumption|].
    set (e1 := snd (handlePlayerMove e row col)) in *.
    assert (Hlen1 : (length a1 <= 9)%nat)
      by (unfold a1; rewrite length_insert; lia).
    destruct (getMove_some a1 (difficulty (stores e1)) r Hlen1
                (ongoing_has_move a1 Hlen1 Hres) H0 H1) as [m Hm].
    destruct (resumeAIMove_spec
                {| bstate := bstate e1; stores := stores e1;
                   pendingAI := 0 |} r a1) as (e2 & He2 & Hinv2 & Hth2
                                               & Hp2 & Hcase).
    + destruct Hinv1 as (a2 & H). exists a2. exact H.
    + exact Hcells1.
    + exists e2, m. cbn [run step]. fold e1.
      rewrite Hp, Hpend. rewrite He2.
      split; [reflexivity|].
      destruct Hcase as [(Hnone & _) | (m' & Hsome & Hnull & Hcells2
                                         & Hcur2)];
        cbn [stores] in *; [congruence|].
      assert (m' = m) by congruence. subst m'.
      split; [assumption|].
      rewrite (contents_Some _ _ _ Hcells2).
      split; [reflexivity|].
      split.
      * unfold getCurrentPlayer. rewrite Hcur2. cbn.
        rewrite Hcur1. reflexivity.
      * split; [assumption | exact Hp2].
Qed.

Lemma player_move_then_computer_reply_witness :
  run newEngine [InitializeGame (JStr "HARD")]
  = Some (initializeGame newEngine (JStr "HARD"))
  /\ pendingAI (initializeGame newEngine (JStr "HARD")) = 0%nat
  /\ fst (handlePlayerMove (initializeGame newEngine (JStr "HARD")) 0 0)
     = true
  /\ snapBoard (getState (snd (handlePlayerMove
                  (initializeGame newEngine (JStr "HARD")) 0 0)))
     = <[Z.to_nat (toIndex 0 0) := X]>
         (snapBoard (getState (initializeGame newEngine (JStr "HARD")))).
Proof.
  assert (H1 : run newEngine [InitializeGame (JStr "HARD")]
               = Some (initializeGame newEngine (JStr "HARD")))
    by reflexivity.
  assert (H2 : pendingAI (initializeGame newEngine (JStr "HARD")) = 0%nat)
    by reflexivity.
  assert (H3 : fst (handlePlayerMove
                      (initializeGame newEngine (JStr "HARD")) 0 0) = true)
    by (vm_compute; reflexivity).
  split; [exact H1|]. split; [exact H2|]. split; [exact H3|].
  exact (proj1 (player_move_then_computer_reply _ _ 0 0 0%Q H1 H2 H3)).
Defined.

(** X23. Whatever the difficulty token, a move that [getMove] answers
    with is legal on the board it was given; and on an array of at most
    nine slots, with [Math.random()] in [0, 1), it answers [null]
    exactly when no slot is empty. *)
Theorem getMove_legal_or_null (board : list jsval) (difficulty : jsval)
    (r : Q) :
  (forall m : nat, getMove board difficulty r = Some (Some m) ->
     validateMoveByIndex board (Z.of_nat m) = true)
  /\ ((length board <= 9)%nat -> (0 <= r)%Q -> (r < 1)%Q ->
      (getMove board difficulty r = Some None
       <-> AI.getAvailableMoves board = [])).
Proof.
  split.
  - intros m Hm. apply legal_available.
    now apply (getMove_available board difficulty r).
  - intros Hlen H0 H1. split.
    + intros Hnone.
      destruct (AI.getAvailableMoves board) as [|m0 rest] eqn:Hav;
        [reflexivity|].
      destruct (getMove_some board difficulty r Hlen) as [m Hm];
        [rewrite Hav; discriminate | assumption | assumption |].
      congruence.
    + intros Hav. unfold getMove.
      destruct (strictEq difficulty (JStr "EASY")).
      * f_equal. now apply getRandomMove_none_iff.
      * unfold getMinimaxMove. now rewrite Hav.
Qed.

End EngineRound.
